(** * Keyframe splines: [src/geometry/spline.h]

    A shallow embedding of the class templates [Spline<T>], its two full
    specialisations [Spline<Quat>] and [Spline<bool>], and the variadic
    composition [Splines<T, Ts...>], followed by the properties of their
    operations.

    Modelling conventions.
    - A [float] knot time is the rational number it denotes, in canonical
      form ([Qc]): every finite float is a rational, the order of finite
      floats is the order of the rationals, and Leibniz equality on [Qc] is
      key equality.  NaN and infinite keys (for which [std::map]'s
      comparator is not a strict weak order) and the sign of a zero key are
      outside the model.
    - The [float] arithmetic of [at] (one subtraction per endpoint, one
      division) is IEEE 754 binary32 arithmetic with round to nearest, ties
      to even ([Float32]): its results may be infinite or NaN.
    - [std::map<float, T>] is the list of its (key, value) nodes in iteration
      order; the container keeps that list strictly increasing by key
      ([StdMap.ordered]).  An iterator is a position in that list.
    - [std::set<float>] is the strictly increasing list of its elements.
    - [Quat], its default constructor and [slerp] come from [lib/mathlib.h],
      which is not part of this file: they are parameters.
    - The body of the primary template's [at] and of [cubic_unit_spline] is
      not part of this file either; [SplinePrimary] models it from the
      specification. *)

From Stdlib Require Import List Bool Arith PeanoNat Lia ZArith QArith Qcanon Lqa.
From Stdlib Require Import Qround Qabs Sorting.Sorted SpecFloat.
Import ListNotations.

(* ================================================================== *)
(** * Part I: the program                                              *)
(* ================================================================== *)

(** ** Time values *)

(** The C++ type [float], as used for knot times. *)
Abbreviation float := Qc.

Module Time.

(** [a < b] on keys, as a boolean. *)
Definition ltb (a b : float) : bool :=
  match (a ?= b)%Qc with Lt => true | _ => false end.

(** [b > a], the way the source writes the hold-first test. *)
Definition gtb (a b : float) : bool := ltb b a.

(** [a == b] on keys, as a boolean. *)
Definition eqb (a b : float) : bool :=
  match (a ?= b)%Qc with Eq => true | _ => false end.

(** [a <= b] on keys, as a boolean. *)
Definition leb (a b : float) : bool := negb (ltb b a).

Definition of_Z (z : Z) : float := Q2Qc (inject_Z z).

End Time.

(** ** Single-precision arithmetic

    The value of a [float] expression: a finite number (with [Num 0] for
    +0), -0, an infinity or NaN.  Finite results are kept in units of
    2^-149, the spacing of the smallest floats: a result is rounded to 24
    significant bits, or to a whole number of units when it is smaller
    than 2^24 units, and overflows to an infinity from 2^128 on. *)

Module Float32.

Inductive value : Type :=
| Num (q : Qc)
| NegZero
| Inf (negative : bool)
| NaN.

Definition zero (negative : bool) : value :=
  if negative then NegZero else Num (Q2Qc 0).

Definition negative (x : Q) : bool :=
  match Qcompare x 0 with Lt => true | _ => false end.

Definition sign (v : value) : bool :=
  match v with
  | Num q => negative q
  | NegZero => true
  | Inf s => s
  | NaN => false
  end.

Definition is_zero (v : value) : bool :=
  match v with
  | Num q => match Qcompare q 0 with Eq => true | _ => false end
  | NegZero => true
  | _ => false
  end.

(** Round to the nearest integer, ties to even. *)
Definition rne (q : Q) : Z :=
  let f := Qfloor q in
  match Qcompare (q - inject_Z f) (1 # 2) with
  | Lt => f
  | Gt => (f + 1)%Z
  | Eq => if Z.even f then f else (f + 1)%Z
  end.

(** The weight, in units, of the last bit kept for a magnitude of [X]
    units: 24 significant bits, and never less than one unit. *)
Definition lsb (X : Q) : Z := Z.max 0 (Z.log2 (Qfloor X) - 23).

(** A magnitude of [X] units, rounded to the nearest float. *)
Definition round_units (X : Q) : Z :=
  let e := lsb X in (rne (X / inject_Z (2 ^ e)) * 2 ^ e)%Z.

(** The unit: 2^-149. *)
Definition ulp_min : Q := 1 / inject_Z (2 ^ 149).

Definition in_units (x : Q) : Q := Qabs x / ulp_min.

(** The float of sign [neg] and magnitude [R] units; 2^277 units are
    2^128, the first magnitude that overflows. *)
Definition of_units (neg : bool) (R : Z) : value :=
  if (2 ^ 277 <=? R)%Z then Inf neg
  else if (R =? 0)%Z then zero neg
  else Num (Q2Qc (inject_Z (if neg then - R else R) * ulp_min)).

(** The float nearest to the real number [x]. *)
Definition round (x : Q) : value :=
  of_units (negative x) (round_units (in_units x)).

(** [a - b] on two finite floats.  A difference of two floats below 2^-126
    in magnitude is a whole number of units and therefore exact; the model
    returns it as it is. *)
Definition sub (a b : float) : value :=
  let x := (a - b)%Qc in
  match Qcompare (in_units x) (inject_Z (2 ^ 23)) with
  | Lt => Num x
  | _ => round x
  end.

(** [x / y], with the IEEE 754 special cases. *)
Definition div (x y : value) : value :=
  match x, y with
  | NaN, _ | _, NaN => NaN
  | Inf _, Inf _ => NaN
  | Inf s, _ => Inf (xorb s (sign y))
  | _, Inf s => zero (xorb (sign x) s)
  | Num a, Num b =>
      if is_zero y then (if is_zero x then NaN else Inf (xorb (sign x) (sign y)))
      else if is_zero x then zero (xorb (sign x) (sign y))
      else round (a / b)
  | _, _ =>
      if is_zero y then (if is_zero x then NaN else Inf (xorb (sign x) (sign y)))
      else zero (xorb (sign x) (sign y))
  end.

(** *** Vocabulary for statements about float values *)

(** [v] is a number in the unit interval. *)
Definition unit_interval (v : value) : Prop :=
  exists q : Qc, v = Num q /\ 0 <= q /\ q <= 1.

(** [v] is a positive number or +infinity. *)
Definition positive (v : value) : Prop :=
  match v with
  | Num q => 0 < q
  | Inf false => True
  | _ => False
  end.

(** [v] and [w] are non-negative numbers or +infinity, and [v] is not
    above [w]. *)
Definition below (v w : value) : Prop :=
  match v, w with
  | Num p, Num q => 0 <= p /\ p <= q
  | Num p, Inf false => 0 <= p
  | Inf false, Inf false => True
  | _, _ => False
  end.

End Float32.

(** C++ value initialisation [T()]. *)
Class DefaultConstructible (T : Type) : Type := construct : T.

#[export] Instance bool_default : DefaultConstructible bool := false.

(** ** Cross-check of the arithmetic

    The Standard Library's executable IEEE 754 specification, taken at
    binary32 (precision 24, maximal exponent 128), and a list of floats,
    given by mantissa and exponent, on which [Float32] is compared with
    it. *)

Module Float32Check.

Definition binary32 (m e : Z) : spec_float := binary_normalize 24 128 m e false.

Definition number (m e : Z) : float := Q2Qc (inject_Z m * 2 ^ e).

Definition of_spec (f : spec_float) : Float32.value :=
  match f with
  | S754_zero s => Float32.zero s
  | S754_infinity s => Float32.Inf s
  | S754_nan => Float32.NaN
  | S754_finite s m e =>
      Float32.Num (number (if s then Zneg m else Zpos m) e)
  end.

Definition same (a b : Float32.value) : bool :=
  match a, b with
  | Float32.Num p, Float32.Num q => Qeq_bool p q
  | Float32.NegZero, Float32.NegZero => true
  | Float32.Inf s, Float32.Inf s' => Bool.eqb s s'
  | Float32.NaN, Float32.NaN => true
  | _, _ => false
  end.

Definition sub_agrees (a b : Z * Z) : bool :=
  same (of_spec (SFsub 24 128 (binary32 (fst a) (snd a)) (binary32 (fst b) (snd b))))
       (Float32.sub (number (fst a) (snd a)) (number (fst b) (snd b))).

Definition div_agrees (a b : Z * Z) : bool :=
  same (of_spec (SFdiv 24 128 (binary32 (fst a) (snd a)) (binary32 (fst b) (snd b))))
       (Float32.div (of_spec (binary32 (fst a) (snd a)))
                    (of_spec (binary32 (fst b) (snd b)))).

Definition samples : list (Z * Z) :=
  [(0, 0); (1, 0); (3, 0); (1, -1); (3, -2); (10, 0); (7, -3); (-1, 0);
   (-3, 5); (16777215, 0); (16777215, 104); (-16777215, 104); (3, 126);
   (-3, 126); (1, 127); (8388608, -149); (1, -149); (3, -149); (-7, -149);
   (16777215, -149); (1, -126); (12345, -140); (11184811, -25);
   (13421773, -27); (16777213, -24); (8388609, -23); (9999999, -30);
   (14680065, 60); (-12582913, -100)]%Z.

Definition sample_pairs : list ((Z * Z) * (Z * Z)) :=
  flat_map (fun a => List.map (fun b => (a, b)) samples) samples.

End Float32Check.

(** ** [std::set<float>] *)

Module StdSet.

Definition set : Type := list float.

(** [s.insert(x)]: no effect when an equal element is present. *)
Fixpoint insert (x : float) (s : set) : set :=
  match s with
  | [] => [x]
  | y :: s' =>
      match (x ?= y)%Qc with
      | Lt => x :: s
      | Eq => s
      | Gt => y :: insert x s'
      end
  end.

(** [s.insert(first, last)] over the elements of another container. *)
Definition insert_range (xs : list float) (s : set) : set :=
  fold_left (fun acc x => insert x acc) xs s.

End StdSet.

(** ** [std::map<float, T>] *)

Module StdMap.

Definition map (T : Type) : Type := list (float * T).

Definition iterator : Type := nat.

Section Ops.
Context {T : Type}.

Definition begin_ (m : map T) : iterator := 0%nat.
Definition end_ (m : map T) : iterator := length m.
Definition prev (it : iterator) : iterator := Nat.pred it.

(** [*it].  Dereferencing [end()] is undefined in C++; here it yields
    the pair given as [d], and the evaluation functions below never
    reach that case on a well-formed map. *)
Definition deref (d : float * T) (m : map T) (it : iterator) : float * T :=
  nth it m d.

Definition empty (m : map T) : bool :=
  match m with [] => true | _ :: _ => false end.

Definition size (m : map T) : nat := length m.

Definition clear (m : map T) : map T := [].

(** [m.count(key)]: 0 or 1. *)
Fixpoint count (key : float) (m : map T) : nat :=
  match m with
  | [] => 0%nat
  | (k, _) :: m' =>
      match (key ?= k)%Qc with
      | Lt => 0%nat
      | Eq => 1%nat
      | Gt => count key m'
      end
  end.

(** [m.find(key)] followed by reading [->second]. *)
Fixpoint find (key : float) (m : map T) : option T :=
  match m with
  | [] => None
  | (k, v) :: m' =>
      match (key ?= k)%Qc with
      | Lt => None
      | Eq => Some v
      | Gt => find key m'
      end
  end.

(** [m[key] = value]: the node with that key is created when missing,
    then its value is assigned. *)
Fixpoint assign (key : float) (value : T) (m : map T) : map T :=
  match m with
  | [] => [(key, value)]
  | (k, v) :: m' =>
      match (key ?= k)%Qc with
      | Lt => (key, value) :: m
      | Eq => (k, value) :: m'
      | Gt => (k, v) :: assign key value m'
      end
  end.

(** [m.erase(key)]. *)
Fixpoint erase_key (key : float) (m : map T) : map T :=
  match m with
  | [] => []
  | (k, v) :: m' =>
      match (key ?= k)%Qc with
      | Lt => m
      | Eq => m'
      | Gt => (k, v) :: erase_key key m'
      end
  end.

(** [m.erase(first, last)]. *)
Definition erase_range (first last : iterator) (m : map T) : map T :=
  firstn first m ++ skipn last m.

(** [m.lower_bound(key)]: the first node whose key is not less than
    [key], or [end()]. *)
Fixpoint lower_bound (key : float) (m : map T) : iterator :=
  match m with
  | [] => 0%nat
  | (k, _) :: m' =>
      if Time.ltb k key then S (lower_bound key m') else 0%nat
  end.

(** [m.upper_bound(key)]: the first node whose key is greater than
    [key], or [end()]. *)
Fixpoint upper_bound (key : float) (m : map T) : iterator :=
  match m with
  | [] => 0%nat
  | (k, _) :: m' =>
      if Time.ltb key k then 0%nat else S (upper_bound key m')
  end.

(** The container invariant: keys strictly increase along iteration. *)
Definition above (k : float) (m : map T) : Prop :=
  Forall (fun e => (k < fst e)%Qc) m.

Fixpoint ordered (m : map T) : Prop :=
  match m with
  | [] => True
  | e :: m' => above (fst e) m' /\ ordered m'
  end.

End Ops.

End StdMap.

(** ** [template<typename T> class Spline]

    The mutators and queries of the primary template.  Both specialisations
    repeat these bodies word for word over their field [values]. *)

Module Spline.

Section Generic.
Context {T : Type}.

Definition control_points : Type := StdMap.map T.

Definition set (time : float) (value : T) (cp : control_points) : control_points :=
  StdMap.assign time value cp.

Definition erase (time : float) (cp : control_points) : control_points :=
  StdMap.erase_key time cp.

(** [return control_points.count(t);] converted to [bool]. *)
Definition has (t : float) (cp : control_points) : bool :=
  negb (Nat.eqb (StdMap.count t cp) 0).

Definition any (cp : control_points) : bool := negb (StdMap.empty cp).

Definition clear (cp : control_points) : control_points := StdMap.clear cp.

Definition crop (t : float) (cp : control_points) : control_points :=
  let e := StdMap.lower_bound t cp in
  StdMap.erase_range e (StdMap.end_ cp) cp.

Definition keys (cp : control_points) : StdSet.set :=
  fold_left (fun ret e => StdSet.insert (fst e) ret) cp [].

End Generic.

End Spline.

(** ** [template<> class Spline<Quat>] *)

Module SplineQuat.

Section Policy.
Context {Quat : Type} {Quat_ctor : DefaultConstructible Quat}.
Variable slerp : Quat -> Quat -> Float32.value -> Quat.

Definition values : Type := StdMap.map Quat.

Let past_the_end : float * Quat := (Time.of_Z 0, construct).

Definition at_ (values : values) (time : float) : Quat :=
  let deref := StdMap.deref past_the_end values in
  if StdMap.empty values then construct
  else if Nat.eqb (StdMap.size values) 1 then snd (deref (StdMap.begin_ values))
  else if Time.gtb (fst (deref (StdMap.begin_ values))) time
       then snd (deref (StdMap.begin_ values))
  else
    let k2 := StdMap.upper_bound time values in
    if Nat.eqb k2 (StdMap.end_ values)
    then snd (deref (StdMap.prev (StdMap.end_ values)))
    else
      let k1 := StdMap.prev k2 in
      let t := Float32.div (Float32.sub time (fst (deref k1)))
                           (Float32.sub (fst (deref k2)) (fst (deref k1))) in
      slerp (snd (deref k1)) (snd (deref k2)) t.

Definition set : float -> Quat -> values -> values := Spline.set.
Definition erase : float -> values -> values := Spline.erase.
Definition keys : values -> StdSet.set := Spline.keys.
Definition has : float -> values -> bool := Spline.has.
Definition any : values -> bool := Spline.any.
Definition clear : values -> values := Spline.clear.
Definition crop : float -> values -> values := Spline.crop.

End Policy.

End SplineQuat.

(** ** [template<> class Spline<bool>] *)

Module SplineBool.

Definition values : Type := StdMap.map bool.

Definition past_the_end : float * bool := (Time.of_Z 0, false).

Definition at_ (values : values) (time : float) : bool :=
  let deref := StdMap.deref past_the_end values in
  if StdMap.empty values then false
  else if Nat.eqb (StdMap.size values) 1 then snd (deref (StdMap.begin_ values))
  else if Time.gtb (fst (deref (StdMap.begin_ values))) time
       then snd (deref (StdMap.begin_ values))
  else
    let k2 := StdMap.upper_bound time values in
    if Nat.eqb k2 (StdMap.end_ values)
    then snd (deref (StdMap.prev (StdMap.end_ values)))
    else snd (deref (StdMap.prev k2)).

Definition set : float -> bool -> values -> values := Spline.set.
Definition erase : float -> values -> values := Spline.erase.
Definition keys : values -> StdSet.set := Spline.keys.
Definition has : float -> values -> bool := Spline.has.
Definition any : values -> bool := Spline.any.
Definition clear : values -> values := Spline.clear.
Definition crop : float -> values -> values := Spline.crop.

End SplineBool.

(** ** The primary template's [at] *)

Module SplinePrimary.

Section Policy.
Context {T : Type} {T_ctor : DefaultConstructible T}.

(** [cubic_unit_spline(time, position0, position1, tangent0, tangent1)],
    declared at lines 62-63; its body is not in the header. *)
Variable cubic_unit_spline : Float32.value -> T -> T -> T -> T -> T.

(** The tangent estimate at the knot an iterator points to, taken from its
    neighbours; the specification leaves the rule at the end knots open. *)
Variable tangent : StdMap.map T -> StdMap.iterator -> T.

Let past_the_end : float * T := (Time.of_Z 0, construct).

(** Modelled from the spec: the body of [Spline<T>::at], which the header
    only declares (line 11).  Section 4.1: zero knots give the no-value
    result; one knot gives its value; a query at or before the smallest
    knot time gives the smallest knot's value; a query at or after the
    largest knot time gives the largest knot's value; otherwise the
    bracketing pair with [k1.time < time <= k2.time] is found by ordered
    search and the cubic is evaluated at
    [u = (time - k1.time) / (k2.time - k1.time)] with the two knot values
    and the two tangent estimates. *)
Definition at_ (control_points : StdMap.map T) (time : float) : T :=
  let deref := StdMap.deref past_the_end control_points in
  let first := StdMap.begin_ control_points in
  let last := StdMap.prev (StdMap.end_ control_points) in
  if StdMap.empty control_points then construct
  else if Nat.eqb (StdMap.size control_points) 1 then snd (deref first)
  else if Time.leb time (fst (deref first)) then snd (deref first)
  else if Time.leb (fst (deref last)) time then snd (deref last)
  else
    let k2 := StdMap.lower_bound time control_points in
    let k1 := StdMap.prev k2 in
    let u := Float32.div (Float32.sub time (fst (deref k1)))
                         (Float32.sub (fst (deref k2)) (fst (deref k1))) in
    cubic_unit_spline u (snd (deref k1)) (snd (deref k2))
      (tangent control_points k1) (tangent control_points k2).

End Policy.

End SplinePrimary.

(** ** [template<typename T, typename... Ts> class Splines]

    A channel is a value type together with the [at] of the [Spline] class
    that the compiler selects for it.  [Single] is the one-parameter partial
    specialisation [Splines<T>], [Chain] the primary template with its
    [head] and [tail] members; [std::tuple] is a right-nested product. *)

Module Splines.

Record Channel : Type := {
  value : Type;
  head_at : StdMap.map value -> float -> value
}.

Definition bool_channel : Channel :=
  {| value := bool; head_at := SplineBool.at_ |}.

Definition quat_channel (Quat : Type) {Quat_ctor : DefaultConstructible Quat}
    (slerp : Quat -> Quat -> Float32.value -> Quat) : Channel :=
  {| value := Quat; head_at := SplineQuat.at_ slerp |}.

Fixpoint tuple (Ts : list Channel) : Type :=
  match Ts with
  | [] => unit
  | T :: Ts' => (value T * tuple Ts')%type
  end.

Inductive Splines : list Channel -> Type :=
| Single (T : Channel) (head : StdMap.map (value T)) : Splines [T]
| Chain (T : Channel) (Ts : list Channel)
    (head : StdMap.map (value T)) (tail : Splines Ts) : Splines (T :: Ts).

Arguments Single {T} head.
Arguments Chain {T Ts} head tail.

(** A default-constructed composition: every channel's map is empty. *)
Fixpoint create (T : Channel) (Ts : list Channel) : Splines (T :: Ts) :=
  match Ts with
  | [] => Single []
  | T' :: Ts' => Chain [] (create T' Ts')
  end.

Fixpoint set {Ts} (t : float) (s : Splines Ts) {struct s} : tuple Ts -> Splines Ts :=
  match s in Splines Ts return tuple Ts -> Splines Ts with
  | Single head => fun args => Single (Spline.set t (fst args) head)
  | Chain head tail =>
      fun args => Chain (Spline.set t (fst args) head) (set t tail (snd args))
  end.

Fixpoint erase {Ts} (t : float) (s : Splines Ts) : Splines Ts :=
  match s with
  | Single head => Single (Spline.erase t head)
  | Chain head tail => Chain (Spline.erase t head) (erase t tail)
  end.

Fixpoint any {Ts} (s : Splines Ts) : bool :=
  match s with
  | Single head => Spline.any head
  | Chain head tail => Spline.any head || any tail
  end.

Fixpoint has {Ts} (t : float) (s : Splines Ts) : bool :=
  match s with
  | Single head => Spline.has t head
  | Chain head tail => Spline.has t head || has t tail
  end.

Fixpoint clear {Ts} (s : Splines Ts) : Splines Ts :=
  match s with
  | Single head => Single (Spline.clear head)
  | Chain head tail => Chain (Spline.clear head) (clear tail)
  end.

Fixpoint crop {Ts} (t : float) (s : Splines Ts) : Splines Ts :=
  match s with
  | Single head => Single (Spline.crop t head)
  | Chain head tail => Chain (Spline.crop t head) (crop t tail)
  end.

Fixpoint keys {Ts} (s : Splines Ts) : StdSet.set :=
  match s with
  | Single head => Spline.keys head
  | Chain head tail =>
      let first := Spline.keys head in
      let rest := keys tail in
      StdSet.insert_range first rest
  end.

Fixpoint at_ {Ts} (s : Splines Ts) (t : float) : tuple Ts :=
  match s in Splines Ts return tuple Ts with
  | Single head => (head_at _ head t, tt)
  | @Chain T _ head tail => (head_at T head t, at_ tail t)
  end.

(** *** Observers used to state the properties *)

(** The key set of every channel, in channel order. *)
Fixpoint channel_keys {Ts} (s : Splines Ts) : list StdSet.set :=
  match s with
  | Single head => [Spline.keys head]
  | Chain head tail => Spline.keys head :: channel_keys tail
  end.

(** A value tagged with the channel it belongs to. *)
Definition tagged : Type := { T : Channel & value T }.

(** Channel [i] evaluated on its own at time [t]. *)
Fixpoint channel_at {Ts} (s : Splines Ts) (t : float) (i : nat) : option tagged :=
  match s with
  | @Single T head =>
      match i with
      | O => Some (existT _ T (head_at T head t))
      | S _ => None
      end
  | @Chain T _ head tail =>
      match i with
      | O => Some (existT _ T (head_at T head t))
      | S i' => channel_at tail t i'
      end
  end.

(** Component [i] of a tuple. *)
Fixpoint component (Ts : list Channel) : tuple Ts -> nat -> option tagged :=
  match Ts return tuple Ts -> nat -> option tagged with
  | [] => fun _ _ => None
  | T :: Ts' =>
      fun args i =>
        match i with
        | O => Some (existT _ T (fst args))
        | S i' => component Ts' (snd args) i'
        end
  end.

(** Every channel, after its own single-channel [set(t, v)] with its
    component [v] of [args], evaluates to that [v] at [t]. *)
Fixpoint exact_at_knot {Ts} (s : Splines Ts) (t : float) : tuple Ts -> Prop :=
  match s in Splines Ts return tuple Ts -> Prop with
  | @Single T head =>
      fun args => head_at T (Spline.set t (fst args) head) t = fst args
  | @Chain T _ head tail =>
      fun args =>
        head_at T (Spline.set t (fst args) head) t = fst args
        /\ exact_at_knot tail t (snd args)
  end.

(** Every channel's map is well formed and holds the key sequence [ks]. *)
Fixpoint lockstep {Ts} (ks : list float) (s : Splines Ts) : Prop :=
  match s with
  | Single head => StdMap.ordered head /\ List.map fst head = ks
  | Chain head tail =>
      (StdMap.ordered head /\ List.map fst head = ks) /\ lockstep ks tail
  end.

(** The valueless map with key sequence [ks]. *)
Definition shape (ks : list float) : StdMap.map unit :=
  List.map (fun k => (k, tt)) ks.

(** The public mutating operations, as data, and their execution. *)
Inductive call (Ts : list Channel) : Type :=
| CallSet (t : float) (args : tuple Ts)
| CallErase (t : float)
| CallClear
| CallCrop (t : float).

Arguments CallSet {Ts} t args.
Arguments CallErase {Ts} t.
Arguments CallClear {Ts}.
Arguments CallCrop {Ts} t.

Definition step {Ts} (s : Splines Ts) (c : call Ts) : Splines Ts :=
  match c with
  | CallSet t args => set t s args
  | CallErase t => erase t s
  | CallClear => clear s
  | CallCrop t => crop t s
  end.

Definition run {Ts} (cs : list (call Ts)) (s : Splines Ts) : Splines Ts :=
  fold_left step cs s.

End Splines.

(** ** Vocabulary of the specification *)

Module Knots.

Section Defs.
Context {T : Type}.

(** [a] and [b] are neighbouring knots of [m], [a] first. *)
Definition adjacent (m : StdMap.map T) (a b : float * T) : Prop :=
  exists l1 l2, m = l1 ++ a :: b :: l2.

(** The knots of [m] stored at time [t]. *)
Definition knots_at (t : float) (m : StdMap.map T) : list (float * T) :=
  filter (fun e => Time.eqb (fst e) t) m.

(** [e] is a knot of [m] and no knot of [m] is earlier. *)
Definition smallest (m : StdMap.map T) (e : float * T) : Prop :=
  In e m /\ forall e', In e' m -> (fst e <= fst e')%Qc.

(** [e] is a knot of [m] and no knot of [m] is later. *)
Definition largest (m : StdMap.map T) (e : float * T) : Prop :=
  In e m /\ forall e', In e' m -> (fst e' <= fst e)%Qc.

(** [t] lies strictly between the smallest and the largest knot time. *)
Definition interior (m : StdMap.map T) (t : float) : Prop :=
  (exists e, In e m /\ (fst e < t)%Qc) /\ (exists e, In e m /\ (t < fst e)%Qc).

(** The boundary behaviour shared by the evaluation policies. *)
Definition boundary_cases (at_ : StdMap.map T -> float -> T) (no_value : T) : Prop :=
  (forall t, at_ [] t = no_value)
  /\ (forall t0 v0 t, at_ [(t0, v0)] t = v0)
  /\ (forall m e t, StdMap.ordered m -> smallest m e -> (t <= fst e)%Qc ->
        at_ m t = snd e)
  /\ (forall m e t, StdMap.ordered m -> largest m e -> (fst e <= t)%Qc ->
        at_ m t = snd e).

(** The boundary behaviour without the case "exactly at the smallest knot
    time". *)
Definition boundary_cases_strict (at_ : StdMap.map T -> float -> T) (no_value : T) : Prop :=
  (forall t, at_ [] t = no_value)
  /\ (forall t0 v0 t, at_ [(t0, v0)] t = v0)
  /\ (forall m e t, StdMap.ordered m -> smallest m e -> (t < fst e)%Qc ->
        at_ m t = snd e)
  /\ (forall m e t, StdMap.ordered m -> largest m e -> (fst e <= t)%Qc ->
        at_ m t = snd e).

(** The local parameter of [t] inside the bracket from [k1] to [k2], as
    line 116 computes it. *)
Definition local_parameter (k1 k2 t : float) : Float32.value :=
  Float32.div (Float32.sub t k1) (Float32.sub k2 k1).

(** The control flow common to both [at] bodies, with the last step
    (what is done with the bracket [k1], [k2]) left open. *)
Definition eval (no_value : T) (past_the_end : float * T)
    (between : float * T -> float * T -> float -> T)
    (values : StdMap.map T) (time : float) : T :=
  let deref := StdMap.deref past_the_end values in
  if StdMap.empty values then no_value
  else if Nat.eqb (StdMap.size values) 1 then snd (deref (StdMap.begin_ values))
  else if Time.gtb (fst (deref (StdMap.begin_ values))) time
       then snd (deref (StdMap.begin_ values))
  else
    let k2 := StdMap.upper_bound time values in
    if Nat.eqb k2 (StdMap.end_ values)
    then snd (deref (StdMap.prev (StdMap.end_ values)))
    else between (deref (StdMap.prev k2)) (deref k2) time.

(** What [Spline<bool>::at] does with a bracket. *)
Definition step_between (k1 k2 : float * T) (time : float) : T := snd k1.

(** What [Spline<Quat>::at] does with a bracket. *)
Definition slerp_between (slerp : T -> T -> Float32.value -> T)
    (k1 k2 : float * T) (time : float) : T :=
  slerp (snd k1) (snd k2) (local_parameter (fst k1) (fst k2) time).

End Defs.

End Knots.

(** ** A concrete rotation type for examples

    Rotations of the plane, represented by their angle; spherical linear
    interpolation of two planar rotations interpolates the angle linearly.
    For a parameter that is not a number the sample returns its first
    argument. *)

Module Planar.

Definition Rot : Type := Qc.

#[global] Instance Rot_default : DefaultConstructible Rot := Q2Qc 0.

Definition slerp (q0 q1 : Rot) (t : Float32.value) : Rot :=
  match t with
  | Float32.Num u => (q0 + u * (q1 - q0))%Qc
  | _ => q0
  end.

End Planar.

(** ** A small boolean spline for examples *)

Module Sample.

Definition knots : StdMap.map bool :=
  [(Time.of_Z 1, true); (Time.of_Z 2, false); (Time.of_Z 3, true)].

End Sample.

(** ** The life of one spline

    A spline starts empty and is changed only through its public mutators;
    a history is the sequence of those calls. *)

Module Lifetime.

Inductive call (T : Type) : Type :=
| CallSet (time : float) (value : T)
| CallErase (time : float)
| CallClear
| CallCrop (t : float).

Arguments CallSet {T} time value.
Arguments CallErase {T} time.
Arguments CallClear {T}.
Arguments CallCrop {T} t.

Definition step {T : Type} (cp : StdMap.map T) (c : call T) : StdMap.map T :=
  match c with
  | CallSet time value => Spline.set time value cp
  | CallErase time => Spline.erase time cp
  | CallClear => Spline.clear cp
  | CallCrop t => Spline.crop t cp
  end.

Definition run {T : Type} (cs : list (call T)) (cp : StdMap.map T) : StdMap.map T :=
  fold_left step cs cp.

End Lifetime.

(** ** Well-formed compositions *)

Module Channels.

(** Every channel's map satisfies the container invariant. *)
Fixpoint ordered {Ts} (s : Splines.Splines Ts) : Prop :=
  match s with
  | Splines.Single head => StdMap.ordered head
  | Splines.Chain head tail => StdMap.ordered head /\ ordered tail
  end.

End Channels.

(* ================================================================== *)
(** * Part II: properties                                              *)
(* ================================================================== *)

Local Open Scope Qc_scope.

(** ** Order on times *)

Module TimeFacts.

Ltac order :=
  unfold Qclt, Qcle in *;
  try match goal with |- @eq Qc _ _ => apply Qc_is_canon end;
  try match goal with
      | |- ~ @eq Qc _ _ => let E := fresh "E" in intro E; rewrite E in *
      end;
  lra.

Lemma compare_spec (x y : float) :
  CompareSpec (x = y) (x < y) (y < x) (x ?= y).
Proof.
  destruct (x ?= y) eqn:E; constructor.
  - now apply Qceq_alt.
  - now apply Qclt_alt.
  - now apply Qcgt_alt.
Qed.

Lemma compare_refl (x : float) : (x ?= x) = Eq.
Proof. now apply Qceq_alt. Qed.

Lemma compare_lt (x y : float) : x < y -> (x ?= y) = Lt.
Proof. now intros H; apply Qclt_alt. Qed.

Lemma compare_gt (x y : float) : y < x -> (x ?= y) = Gt.
Proof. now intros H; apply Qcgt_alt. Qed.

Lemma ltb_lt (x y : float) : Time.ltb x y = true <-> x < y.
Proof.
  unfold Time.ltb.
  destruct (compare_spec x y) as [E | L | G]; split; intros H;
    try discriminate; try reflexivity; try assumption.
  - subst; order.
  - order.
Qed.

Lemma ltb_ge (x y : float) : Time.ltb x y = false <-> y <= x.
Proof.
  unfold Time.ltb.
  destruct (compare_spec x y) as [E | L | G]; split; intros H;
    try discriminate; try reflexivity.
  - subst; order.
  - order.
  - order.
Qed.

Lemma eqb_eq (x y : float) : Time.eqb x y = true <-> x = y.
Proof.
  unfold Time.eqb.
  destruct (compare_spec x y) as [E | L | G]; split; intros H;
    try discriminate; try reflexivity; try assumption.
  - subst; order.
  - subst; order.
Qed.

Lemma eqb_neq (x y : float) : Time.eqb x y = false <-> x <> y.
Proof.
  rewrite <- eqb_eq. destruct (Time.eqb x y); split; congruence.
Qed.

Lemma leb_le (x y : float) : Time.leb x y = true <-> x <= y.
Proof.
  unfold Time.leb. rewrite negb_true_iff. apply ltb_ge.
Qed.

Lemma leb_gt (x y : float) : Time.leb x y = false <-> y < x.
Proof.
  unfold Time.leb. rewrite negb_false_iff. apply ltb_lt.
Qed.

Lemma lt_irrefl (x : float) : ~ x < x.
Proof. intros H; order. Qed.

End TimeFacts.

(** ** Single-precision arithmetic *)

Module Float32Facts.
Import Float32.
Local Open Scope Q_scope.

(** *** Rounding to an integer *)

Lemma rne_bounds (q : Q) : (Qfloor q <= rne q <= Qfloor q + 1)%Z.
Proof.
  unfold rne. destruct (Qcompare _ _); [destruct (Z.even _) | |]; lia.
Qed.

Lemma rne_ge_Z (q : Q) (n : Z) : inject_Z n <= q -> (n <= rne q)%Z.
Proof.
  intros H. apply Qfloor_resp_le in H. rewrite Qfloor_Z in H.
  pose proof (rne_bounds q). lia.
Qed.

Lemma rne_le_Z (q : Q) (n : Z) : q <= inject_Z n -> (rne q <= n)%Z.
Proof.
  intros H. pose proof (Qfloor_resp_le _ _ H) as Hf. rewrite Qfloor_Z in Hf.
  pose proof (rne_bounds q) as Hb.
  destruct (Z.eq_dec (Qfloor q) n) as [E | NE]; [| lia].
  unfold rne. rewrite E.
  destruct (Qcompare_spec (q - inject_Z n) (1 # 2)); try lia; exfalso; lra.
Qed.

Lemma rne_mono (p q : Q) : p <= q -> (rne p <= rne q)%Z.
Proof.
  intros H. pose proof (Qfloor_resp_le _ _ H) as Hf.
  pose proof (rne_bounds p) as Hp. pose proof (rne_bounds q) as Hq.
  destruct (Z.eq_dec (Qfloor p) (Qfloor q)) as [E | NE]; [| lia].
  unfold rne. rewrite E.
  destruct (Qcompare_spec (p - inject_Z (Qfloor q)) (1 # 2)) as [Ep | Lp | Gp];
    destruct (Qcompare_spec (q - inject_Z (Qfloor q)) (1 # 2)) as [Eq' | Lq | Gq];
    try destruct (Z.even (Qfloor q)); try lia; exfalso; lra.
Qed.

(** *** Rounding a magnitude *)

Lemma pow2_pos (e : Z) : (0 < 2 ^ e)%Z -> 0 < inject_Z (2 ^ e).
Proof. intros H. change 0 with (inject_Z 0). now rewrite <- Zlt_Qlt. Qed.

Lemma lsb_nonneg (X : Q) : (0 <= lsb X)%Z.
Proof. unfold lsb. lia. Qed.

Lemma lsb_mono (X Y : Q) : X <= Y -> (lsb X <= lsb Y)%Z.
Proof.
  intros H. apply Qfloor_resp_le in H. apply Z.log2_le_mono in H.
  unfold lsb. lia.
Qed.

Lemma floor_nonneg (X : Q) : 0 <= X -> (0 <= Qfloor X)%Z.
Proof.
  intros H. apply (Qfloor_resp_le 0 X) in H. exact H.
Qed.

Lemma floor_below_pow (X : Q) :
  0 <= X -> X < inject_Z (2 ^ (Z.log2 (Qfloor X) + 1)).
Proof.
  intros H0. apply floor_nonneg in H0.
  assert (Hf : (Qfloor X + 1 <= 2 ^ (Z.log2 (Qfloor X) + 1))%Z).
  { destruct (Z.eq_dec (Qfloor X) 0) as [E | NE].
    - rewrite E. simpl. lia.
    - pose proof (Z.log2_spec (Qfloor X)) as Hs.
      replace (Z.succ (Z.log2 (Qfloor X))) with (Z.log2 (Qfloor X) + 1)%Z in Hs by lia.
      lia. }
  apply Qlt_le_trans with (inject_Z (Qfloor X + 1)).
  - apply Qlt_floor.
  - now rewrite <- Zle_Qle.
Qed.

Lemma round_units_upper (X : Q) :
  0 <= X -> (round_units X <= 2 ^ (Z.log2 (Qfloor X) + 1))%Z.
Proof.
  intros H0. unfold round_units.
  set (l := Z.log2 (Qfloor X)). set (e := lsb X).
  assert (Hl : (0 <= l)%Z) by apply Z.log2_nonneg.
  assert (He : (0 <= e <= l + 1)%Z) by (unfold e, lsb; fold l; lia).
  assert (Hp : (0 < 2 ^ e)%Z) by (apply Z.pow_pos_nonneg; lia).
  assert (Hsplit : (2 ^ (l + 1) = 2 ^ (l + 1 - e) * 2 ^ e)%Z).
  { rewrite <- Z.pow_add_r by lia. f_equal. lia. }
  rewrite Hsplit. apply Z.mul_le_mono_nonneg_r; [lia |].
  apply rne_le_Z. apply Qle_shift_div_r; [now apply pow2_pos |].
  rewrite <- inject_Z_mult, <- Hsplit.
  apply Qlt_le_weak. now apply floor_below_pow.
Qed.

Lemma round_units_lower (X : Q) :
  (1 <= Qfloor X)%Z -> (2 ^ Z.log2 (Qfloor X) <= round_units X)%Z.
Proof.
  intros H1. unfold round_units.
  set (l := Z.log2 (Qfloor X)). set (e := lsb X).
  assert (Hl : (0 <= l)%Z) by apply Z.log2_nonneg.
  assert (He : (0 <= e <= l)%Z) by (unfold e, lsb; fold l; lia).
  assert (Hp : (0 < 2 ^ e)%Z) by (apply Z.pow_pos_nonneg; lia).
  assert (Hsplit : (2 ^ l = 2 ^ (l - e) * 2 ^ e)%Z).
  { rewrite <- Z.pow_add_r by lia. f_equal. lia. }
  rewrite Hsplit. apply Z.mul_le_mono_nonneg_r; [lia |].
  apply rne_ge_Z. apply Qle_shift_div_l; [now apply pow2_pos |].
  rewrite <- inject_Z_mult, <- Hsplit.
  apply Qle_trans with (inject_Z (Qfloor X)); [| apply Qfloor_le].
  rewrite <- Zle_Qle. pose proof (Z.log2_spec (Qfloor X)). unfold l. lia.
Qed.

Lemma round_units_mono (X Y : Q) :
  0 <= X -> X <= Y -> (round_units X <= round_units Y)%Z.
Proof.
  intros H0 H.
  pose proof (Qfloor_resp_le _ _ H) as Hf.
  pose proof (Z.log2_le_mono _ _ Hf) as Hl.
  destruct (Z.eq_dec (Z.log2 (Qfloor X)) (Z.log2 (Qfloor Y))) as [E | NE].
  - unfold round_units, lsb. rewrite E.
    set (e := Z.max 0 (Z.log2 (Qfloor Y) - 23)).
    assert (Hp : (0 < 2 ^ e)%Z) by (apply Z.pow_pos_nonneg; unfold e; lia).
    apply Z.mul_le_mono_nonneg_r; [lia |].
    apply rne_mono. apply Qmult_le_compat_r; [exact H |].
    apply Qlt_le_weak, Qinv_lt_0_compat. now apply pow2_pos.
  - assert (HY : (1 <= Qfloor Y)%Z).
    { destruct (Z_lt_le_dec (Qfloor Y) 1) as [C | C]; [| exact C].
      exfalso. pose proof (Z.log2_nonneg (Qfloor X)).
      assert (Z.log2 (Qfloor Y) = 0)%Z by (apply Z.log2_nonpos; lia). lia. }
    apply Z.le_trans with (2 ^ (Z.log2 (Qfloor X) + 1))%Z;
      [now apply round_units_upper |].
    apply Z.le_trans with (2 ^ Z.log2 (Qfloor Y))%Z;
      [| now apply round_units_lower].
    apply Z.pow_le_mono_r; lia.
Qed.

Lemma round_units_nonneg (X : Q) : 0 <= X -> (0 <= round_units X)%Z.
Proof.
  intros H0. unfold round_units.
  assert (Hp : (0 < 2 ^ lsb X)%Z) by (apply Z.pow_pos_nonneg; [lia | apply lsb_nonneg]).
  apply Z.mul_nonneg_nonneg; [| lia].
  apply (rne_ge_Z _ 0). apply Qle_shift_div_l; [now apply pow2_pos |].
  now rewrite Qmult_0_l.
Qed.

(** *** Rounding to a float *)

Lemma ulp_min_pos : 0 < ulp_min.
Proof. reflexivity. Qed.

Lemma in_units_nonneg (x : Q) : 0 <= in_units x.
Proof.
  unfold in_units. apply Qle_shift_div_l; [exact ulp_min_pos |].
  rewrite Qmult_0_l. apply Qabs_nonneg.
Qed.

Lemma in_units_pos (x : Q) : 0 <= x -> in_units x == x / ulp_min.
Proof. intros H. unfold in_units. now rewrite Qabs_pos. Qed.

Lemma in_units_mono (x y : Q) : 0 <= x -> x <= y -> in_units x <= in_units y.
Proof.
  intros H0 H. rewrite !in_units_pos by lra.
  apply Qmult_le_compat_r; [exact H |].
  apply Qlt_le_weak, Qinv_lt_0_compat, ulp_min_pos.
Qed.

Lemma in_units_back (x : Q) : 0 <= x -> in_units x * ulp_min == x.
Proof.
  intros H. rewrite in_units_pos by exact H. field. discriminate.
Qed.

Lemma negative_nonneg (x : Q) : 0 <= x -> negative x = false.
Proof.
  intros H. unfold negative.
  destruct (Qcompare_spec x 0); try reflexivity. exfalso; lra.
Qed.

Lemma is_zero_pos (q : Qc) : 0 < q -> is_zero (Num q) = false.
Proof.
  intros H. simpl. destruct (Qcompare_spec q 0); try reflexivity. exfalso; lra.
Qed.

Lemma of_units_mono (R S : Z) :
  (0 <= R <= S)%Z -> below (of_units false R) (of_units false S).
Proof.
  intros [H0 H]. unfold of_units, zero.
  assert (Hu := ulp_min_pos).
  destruct (2 ^ 277 <=? R)%Z eqn:ER; destruct (2 ^ 277 <=? S)%Z eqn:ES;
    try exact I.
  - apply Z.leb_le in ER. apply Z.leb_gt in ES. lia.
  - destruct (R =? 0)%Z eqn:E0; cbn [below this Q2Qc].
    + rewrite Qred_correct. lra.
    + rewrite Qred_correct. apply Qmult_le_0_compat; [| lra].
      change 0 with (inject_Z 0). now rewrite <- Zle_Qle.
  - assert (HR : 0 <= inject_Z R) by (change 0 with (inject_Z 0); now rewrite <- Zle_Qle).
    assert (HRS : inject_Z R <= inject_Z S) by now rewrite <- Zle_Qle.
    destruct (R =? 0)%Z eqn:E0; destruct (S =? 0)%Z eqn:E1;
      cbn [below this Q2Qc]; rewrite ?Qred_correct.
    + lra.
    + split; [lra |]. apply Qmult_le_0_compat; lra.
    + apply Z.eqb_neq in E0. apply Z.eqb_eq in E1. lia.
    + split; [apply Qmult_le_0_compat; lra |].
      apply Qmult_le_compat_r; lra.
Qed.

Lemma round_mono (x y : Q) :
  0 <= x -> x <= y -> below (round x) (round y).
Proof.
  intros H0 H. unfold round.
  rewrite !negative_nonneg by lra.
  apply of_units_mono. split.
  - apply round_units_nonneg, in_units_nonneg.
  - apply round_units_mono; [apply in_units_nonneg | now apply in_units_mono].
Qed.

Lemma round_one : round 1 = Num (Q2Qc 1).
Proof. vm_compute. f_equal. now apply Qc_is_canon. Qed.

(** *** Subtraction and division *)

Lemma Qc_minus_Q (a b : Qc) : (a - b)%Qc == a - b.
Proof.
  unfold Qcminus, Qcplus, Qcopp. cbn [this Q2Qc].
  rewrite !Qred_correct. reflexivity.
Qed.

Lemma sub_self (a : Qc) : sub a a = Num (Q2Qc 0).
Proof.
  unfold sub. replace (a - a)%Qc with (Q2Qc 0) by ring. reflexivity.
Qed.

Lemma round_units_23 : round_units (inject_Z (2 ^ 23)) = (2 ^ 23)%Z.
Proof. reflexivity. Qed.

Lemma round_large (y : Q) :
  0 <= y -> inject_Z (2 ^ 23) <= in_units y ->
  round y = Inf false
  \/ exists R, (2 ^ 23 <= R)%Z /\ round y = Num (Q2Qc (inject_Z R * ulp_min)).
Proof.
  intros H0 HY. unfold round. rewrite negative_nonneg by exact H0.
  assert (HR : (2 ^ 23 <= round_units (in_units y))%Z).
  { rewrite <- round_units_23. apply round_units_mono; [| exact HY].
    change 0 with (inject_Z 0). rewrite <- Zle_Qle. lia. }
  unfold of_units. destruct (2 ^ 277 <=? _)%Z; [now left |].
  right. exists (round_units (in_units y)). split; [exact HR |].
  assert (E0 : (round_units (in_units y) =? 0)%Z = false)
    by (apply Z.eqb_neq; lia).
  now rewrite E0.
Qed.

Lemma sub_mono (k1 t k2 : Qc) :
  k1 <= t -> t <= k2 -> below (sub t k1) (sub k2 k1).
Proof.
  intros H1 H2.
  assert (Hx : 0 <= (t - k1)%Qc) by (rewrite Qc_minus_Q; lra).
  assert (Hxy : (t - k1)%Qc <= (k2 - k1)%Qc) by (rewrite !Qc_minus_Q; lra).
  unfold sub.
  set (x := (t - k1)%Qc) in *. set (y := (k2 - k1)%Qc) in *.
  assert (HXY := in_units_mono x y Hx Hxy).
  assert (Hu := ulp_min_pos).
  destruct (Qcompare_spec (in_units x) (inject_Z (2 ^ 23))) as [Ex | Lx | Gx];
    destruct (Qcompare_spec (in_units y) (inject_Z (2 ^ 23))) as [Ey | Ly | Gy];
    try (apply round_mono; assumption);
    try (exfalso; lra).
  - assert (Hy0 : 0 <= y) by lra.
    assert (HY : inject_Z (2 ^ 23) <= in_units y) by lra.
    destruct (round_large y Hy0 HY) as [E | (R & HR & E)]; rewrite E;
      [exact Hx |].
    cbn [below this Q2Qc]. rewrite Qred_correct. split; [exact Hx |].
    rewrite <- (in_units_back x Hx).
    apply Qmult_le_compat_r; [| lra].
    apply Qle_trans with (inject_Z (2 ^ 23)); [lra |].
    now rewrite <- Zle_Qle.
  - cbn [below]. split; assumption.
  - assert (Hy0 : 0 <= y) by lra.
    assert (HY : inject_Z (2 ^ 23) <= in_units y) by lra.
    destruct (round_large y Hy0 HY) as [E | (R & HR & E)]; rewrite E;
      [exact Hx |].
    cbn [below this Q2Qc]. rewrite Qred_correct. split; [exact Hx |].
    rewrite <- (in_units_back x Hx).
    apply Qmult_le_compat_r; [| lra].
    apply Qle_trans with (inject_Z (2 ^ 23)); [lra |].
    now rewrite <- Zle_Qle.
Qed.

Lemma sub_positive (k1 k2 : Qc) : k1 < k2 -> positive (sub k2 k1).
Proof.
  intros H.
  assert (Hy : 0 < (k2 - k1)%Qc) by (rewrite Qc_minus_Q; lra).
  unfold sub. set (y := (k2 - k1)%Qc) in *.
  assert (Hu := ulp_min_pos).
  destruct (Qcompare_spec (in_units y) (inject_Z (2 ^ 23))) as [Ey | Ly | Gy].
  - assert (Hy0 : 0 <= y) by lra.
    assert (HY : inject_Z (2 ^ 23) <= in_units y) by lra.
    destruct (round_large y Hy0 HY) as [E | (R & HR & E)]; rewrite E;
      [exact I |].
    cbn [positive this Q2Qc]. rewrite Qred_correct.
    apply Qmult_lt_0_compat; [| exact Hu].
    change 0 with (inject_Z 0). rewrite <- Zlt_Qlt. lia.
  - exact Hy.
  - assert (Hy0 : 0 <= y) by lra.
    assert (HY : inject_Z (2 ^ 23) <= in_units y) by lra.
    destruct (round_large y Hy0 HY) as [E | (R & HR & E)]; rewrite E;
      [exact I |].
    cbn [positive this Q2Qc]. rewrite Qred_correct.
    apply Qmult_lt_0_compat; [| exact Hu].
    change 0 with (inject_Z 0). rewrite <- Zlt_Qlt. lia.
Qed.

Lemma div_zero_positive (v : value) :
  positive v -> div (Num (Q2Qc 0)) v = Num (Q2Qc 0).
Proof.
  destruct v as [q | | [|] |]; cbn [positive]; try contradiction; intros H.
  - unfold div. rewrite (is_zero_pos q H).
    change (is_zero (Num (Q2Qc 0))) with true. cbn iota.
    assert (Hs : sign (Num q) = false) by (apply negative_nonneg; lra).
    rewrite Hs. reflexivity.
  - reflexivity.
Qed.

Lemma div_unit (a b : value) :
  below a b -> positive b -> a <> Inf false -> unit_interval (div a b).
Proof.
  destruct a as [p | | [|] |], b as [q | | [|] |];
    cbn [below positive]; try contradiction.
  - intros [Hp Hpq] Hq _. unfold div. rewrite (is_zero_pos q Hq).
    assert (Hs : sign (Num p) = false) by (apply negative_nonneg; exact Hp).
    assert (Hsq : sign (Num q) = false) by (apply negative_nonneg; lra).
    destruct (is_zero (Num p)) eqn:Ez.
    + rewrite Hs, Hsq. exists (Q2Qc 0). split; [reflexivity |].
      split; discriminate.
    + assert (Hp0 : 0 < p).
      { cbn [is_zero] in Ez. destruct (Qcompare_spec p 0); try discriminate; lra. }
      assert (Hq1 : 0 < p / q) by (apply Qlt_shift_div_l; lra).
      assert (Hq2 : p / q <= 1) by (apply Qle_shift_div_r; lra).
      pose proof (round_mono (p / q) 1 (Qlt_le_weak _ _ Hq1) Hq2) as Hb.
      rewrite round_one in Hb.
      destruct (round (p / q)) as [r | | [|] |]; cbn [below] in Hb;
        try contradiction.
      exists r. split; [reflexivity |]. exact Hb.
  - intros Hp _ _. cbn [div].
    assert (Hs : sign (Num p) = false) by (apply negative_nonneg; exact Hp).
    rewrite Hs. exists (Q2Qc 0). split; [reflexivity |]. split; discriminate.
Qed.

Lemma div_overflow (b : value) : below (Inf false) b -> div (Inf false) b = NaN.
Proof.
  destruct b as [q | | [|] |]; cbn [below]; try contradiction. reflexivity.
Qed.

End Float32Facts.

(** On every pair of the sample floats, subtraction and division agree
    with the Standard Library's specification of binary32. *)
Lemma float32_agrees_with_specification :
  forallb (fun p => Float32Check.sub_agrees (fst p) (snd p)
                    && Float32Check.div_agrees (fst p) (snd p))
    Float32Check.sample_pairs = true.
Proof. vm_compute. reflexivity. Qed.

(** ** The ordered containers *)

Module MapFacts.
Import TimeFacts.

Section Facts.
Context {T : Type}.
Implicit Types (m : StdMap.map T) (t k : float) (v : T) (e : (float * T)%type).

Lemma above_In k m e : StdMap.above k m -> In e m -> k < fst e.
Proof.
  unfold StdMap.above. rewrite Forall_forall. intros H Hin. now apply H.
Qed.

Lemma above_weaken k k' m : k <= k' -> StdMap.above k' m -> StdMap.above k m.
Proof.
  unfold StdMap.above. intros Hk H.
  eapply Forall_impl; [| exact H]. intros e He; simpl in He. order.
Qed.

Lemma ordered_tail e m : StdMap.ordered (e :: m) -> StdMap.ordered m.
Proof. simpl; tauto. Qed.

Lemma ordered_app (l1 l2 : StdMap.map T) :
  StdMap.ordered (l1 ++ l2) <->
  StdMap.ordered l1 /\ StdMap.ordered l2
  /\ (forall a b, In a l1 -> In b l2 -> fst a < fst b).
Proof.
  induction l1 as [| e l1 IH]; simpl.
  - intuition.
  - unfold StdMap.above. rewrite Forall_app, IH. split.
    + intros [[Ha1 Ha2] (H1 & H2 & H3)]. repeat split; auto.
      intros a b [<- | Ha] Hb.
      * rewrite Forall_forall in Ha2. now apply Ha2.
      * now apply H3.
    + intros ([Ha H1] & H2 & H3). repeat split; auto.
      rewrite Forall_forall. intros b Hb. apply H3; auto.
Qed.

(** *** [find] and [count] *)

Lemma find_before k e m : k < fst e -> StdMap.find k (e :: m) = None.
Proof.
  destruct e as [k0 v0]; simpl. intros H. now rewrite (compare_lt _ _ H).
Qed.

Lemma find_above k m : StdMap.above k m -> StdMap.find k m = None.
Proof.
  destruct m as [| e m]; [reflexivity |].
  intros H. apply find_before. apply (above_In k (e :: m)); simpl; auto.
Qed.

Lemma find_In m t v :
  StdMap.ordered m -> (StdMap.find t m = Some v <-> In (t, v) m).
Proof.
  induction m as [| [k0 v0] m IH]; simpl.
  - intros _. split; [discriminate | tauto].
  - intros [Ha Ho]. destruct (compare_spec t k0) as [E | L | G].
    + subst k0. split.
      * intros [= ->]. now left.
      * intros [[= ->] | Hin]; [reflexivity |].
        apply (above_In _ _ _ Ha) in Hin. simpl in Hin.
        now apply lt_irrefl in Hin.
    + split; [discriminate |].
      intros [[= -> ->] | Hin].
      * now apply lt_irrefl in L.
      * apply (above_In _ _ _ Ha) in Hin. simpl in Hin, Ha. order.
    + rewrite (IH Ho). split; [tauto |].
      intros [[= -> ->] | Hin]; [| exact Hin].
      now apply lt_irrefl in G.
Qed.

Lemma count_find t m :
  StdMap.count t m = match StdMap.find t m with Some _ => 1 | None => 0 end%nat.
Proof.
  induction m as [| [k0 v0] m IH]; simpl; [reflexivity |].
  now destruct (t ?= k0).
Qed.

Lemma has_find t m :
  Spline.has t m = true <-> exists v, StdMap.find t m = Some v.
Proof.
  unfold Spline.has. rewrite count_find.
  destruct (StdMap.find t m) as [v |]; simpl; split.
  - intros _. now exists v.
  - reflexivity.
  - discriminate.
  - intros [v [=]].
Qed.

Lemma has_In t m :
  StdMap.ordered m -> (Spline.has t m = true <-> In t (List.map fst m)).
Proof.
  intros Ho. rewrite has_find, in_map_iff. split.
  - intros [v Hv]. exists (t, v). split; [reflexivity |].
    now apply find_In.
  - intros [[k v] [E Hin]]. simpl in E. subst k. exists v.
    now apply find_In.
Qed.

Lemma has_false t m :
  Spline.has t m = false <-> StdMap.find t m = None.
Proof.
  unfold Spline.has. rewrite count_find.
  destruct (StdMap.find t m); simpl; split; congruence.
Qed.

(** *** [operator[]] assignment *)

Lemma above_assign k t v m :
  k < t -> StdMap.above k m -> StdMap.above k (StdMap.assign t v m).
Proof.
  unfold StdMap.above. intros Hk.
  induction m as [| [k0 v0] m IH]; simpl; intros H.
  - repeat constructor. exact Hk.
  - inversion H as [| ? ? H0 Hm]; subst.
    destruct (t ?= k0); repeat constructor; auto.
Qed.

Lemma ordered_assign t v m :
  StdMap.ordered m -> StdMap.ordered (StdMap.assign t v m).
Proof.
  induction m as [| [k0 v0] m IH]; simpl.
  - intros _. split; [constructor | exact I].
  - intros [Ha Ho]. destruct (compare_spec t k0) as [E | L | G]; simpl.
    + auto.
    + repeat split; auto. constructor; [exact L |].
      apply above_weaken with (k' := k0); [order | exact Ha].
    + split; [now apply above_assign | now apply IH].
Qed.

Lemma find_assign_same t v m : StdMap.find t (StdMap.assign t v m) = Some v.
Proof.
  induction m as [| [k0 v0] m IH]; simpl.
  - now rewrite compare_refl.
  - destruct (t ?= k0) eqn:E; simpl.
    + now rewrite E.
    + now rewrite compare_refl.
    + now rewrite E.
Qed.

Lemma find_assign_other t k v m :
  k <> t -> StdMap.find k (StdMap.assign t v m) = StdMap.find k m.
Proof.
  intros Hne. induction m as [| [k0 v0] m IH]; simpl.
  - destruct (compare_spec k t); congruence.
  - destruct (compare_spec t k0) as [E | L | G]; simpl.
    + subst k0. destruct (compare_spec k t); congruence.
    + destruct (compare_spec k t) as [E' | L' | G']; try congruence.
      assert (Hk : k < k0) by order. now rewrite (compare_lt _ _ Hk).
    + destruct (k ?= k0); auto.
Qed.

Lemma assign_assign t v1 v2 m :
  StdMap.assign t v2 (StdMap.assign t v1 m) = StdMap.assign t v2 m.
Proof.
  induction m as [| [k0 v0] m IH]; simpl.
  - now rewrite compare_refl.
  - destruct (t ?= k0) eqn:E; simpl.
    + now rewrite E.
    + now rewrite compare_refl.
    + now rewrite E, IH.
Qed.

Lemma knots_at_above t m : StdMap.above t m -> Knots.knots_at t m = [].
Proof.
  unfold Knots.knots_at, StdMap.above.
  induction 1 as [| e m He _ IH]; cbn [filter]; [reflexivity |].
  assert (Hn : Time.eqb (fst e) t = false)
    by (apply eqb_neq; intros E; rewrite E in He; now apply lt_irrefl in He).
  now rewrite Hn.
Qed.

Lemma knots_at_find t v m :
  StdMap.ordered m -> StdMap.find t m = Some v ->
  Knots.knots_at t m = [(t, v)].
Proof.
  induction m as [| [k0 v0] m IH]; simpl; [discriminate |].
  intros [Ha Ho]. unfold Knots.knots_at in *; cbn [filter fst].
  destruct (compare_spec t k0) as [E | L | G]; intros Hf.
  - subst k0. injection Hf as ->.
    assert (Hb : Time.eqb t t = true) by now apply eqb_eq.
    rewrite Hb. f_equal. now apply knots_at_above.
  - discriminate.
  - assert (Hb : Time.eqb k0 t = false)
      by (apply eqb_neq; intros E; rewrite E in G; now apply lt_irrefl in G).
    rewrite Hb. now apply IH.
Qed.

(** *** [erase(key)] *)

Lemma above_erase_key k t m :
  StdMap.above k m -> StdMap.above k (StdMap.erase_key t m).
Proof.
  unfold StdMap.above.
  induction m as [| [k0 v0] m IH]; simpl; intros H; [constructor |].
  inversion H; subst. destruct (t ?= k0); auto.
Qed.

Lemma ordered_erase_key t m :
  StdMap.ordered m -> StdMap.ordered (StdMap.erase_key t m).
Proof.
  induction m as [| [k0 v0] m IH]; simpl; [auto |].
  intros [Ha Ho]. destruct (t ?= k0); simpl; auto.
  split; [now apply above_erase_key | now apply IH].
Qed.

Lemma erase_key_absent t m :
  StdMap.find t m = None -> StdMap.erase_key t m = m.
Proof.
  induction m as [| [k0 v0] m IH]; simpl; [reflexivity |].
  destruct (t ?= k0); intros H; try reflexivity; try discriminate.
  now rewrite IH.
Qed.

Lemma In_erase_key t m e :
  StdMap.ordered m ->
  (In e (StdMap.erase_key t m) <-> In e m /\ fst e <> t).
Proof.
  induction m as [| [k0 v0] m IH]; simpl; [tauto |].
  intros [Ha Ho]. destruct (compare_spec t k0) as [E | L | G]; simpl.
  - subst k0. split.
    + intros Hin. split; [now right |].
      apply (above_In _ _ _ Ha) in Hin. simpl in Hin. order.
    + intros [[<- | Hin] Hne]; [now elim Hne | exact Hin].
  - split; [| tauto]. intros Hin. split; [exact Hin |].
    destruct Hin as [<- | Hin]; simpl; [order |].
    apply (above_In _ _ _ Ha) in Hin. simpl in Hin. order.
  - rewrite (IH Ho). split.
    + intros [<- | [Hin Hne]]; [| tauto]. split; [now left | simpl; order].
    + intros [[<- | Hin] Hne]; [now left | now right].
Qed.

(** *** [lower_bound] and [crop] *)

Lemma crop_firstn t m : Spline.crop t m = firstn (StdMap.lower_bound t m) m.
Proof.
  unfold Spline.crop, StdMap.erase_range, StdMap.end_.
  now rewrite skipn_all, app_nil_r.
Qed.

Lemma filter_above t k m :
  t <= k -> StdMap.above k m ->
  filter (fun e => Time.ltb (fst e) t) m = [].
Proof.
  unfold StdMap.above. intros Hk.
  induction 1 as [| e m He _ IH]; cbn [filter]; [reflexivity |].
  destruct (Time.ltb (fst e) t) eqn:Hb; [| exact IH].
  apply ltb_lt in Hb. order.
Qed.

Lemma crop_filter t m :
  StdMap.ordered m ->
  Spline.crop t m = filter (fun e => Time.ltb (fst e) t) m.
Proof.
  rewrite crop_firstn.
  induction m as [| [k0 v0] m IH]; [reflexivity |].
  intros [Ha Ho]. cbn [StdMap.lower_bound filter fst].
  destruct (Time.ltb k0 t) eqn:Hb.
  - cbn [firstn]. f_equal. now apply IH.
  - apply ltb_ge in Hb. cbn [firstn]. symmetry.
    now apply filter_above with (k := k0).
Qed.

Lemma ordered_firstn n m : StdMap.ordered m -> StdMap.ordered (firstn n m).
Proof.
  intros Ho. rewrite <- (firstn_skipn n m) in Ho.
  now apply ordered_app in Ho.
Qed.

Lemma ordered_crop t m : StdMap.ordered m -> StdMap.ordered (Spline.crop t m).
Proof. rewrite crop_firstn. apply ordered_firstn. Qed.

(** *** [keys] *)

Lemma insert_last (x : float) (s : StdSet.set) :
  Forall (fun y => y < x) s -> StdSet.insert x s = s ++ [x].
Proof.
  induction 1 as [| y s Hy _ IH]; simpl; [reflexivity |].
  now rewrite (compare_gt _ _ Hy), IH.
Qed.

Lemma keys_fold m (acc : StdSet.set) :
  StdMap.ordered m ->
  (forall y e, In y acc -> In e m -> y < fst e) ->
  fold_left (fun ret e => StdSet.insert (fst e) ret) m acc
  = acc ++ List.map fst m.
Proof.
  revert acc. induction m as [| e m IH]; intros acc Ho Hlt; simpl.
  - now rewrite app_nil_r.
  - destruct Ho as [Ha Ho].
    rewrite insert_last.
    + rewrite IH; [now rewrite <- app_assoc | exact Ho |].
      intros y e' Hy He'. apply in_app_or in Hy.
      destruct Hy as [Hy | [<- | []]].
      * apply Hlt; simpl; auto.
      * now apply (above_In _ _ _ Ha).
    + apply Forall_forall. intros y Hy. apply Hlt; simpl; auto.
Qed.

Lemma keys_ordered m : StdMap.ordered m -> Spline.keys m = List.map fst m.
Proof.
  intros Ho. unfold Spline.keys. rewrite keys_fold; auto.
  intros y e [].
Qed.

Lemma insert_present k m :
  StdMap.ordered m -> In k (List.map fst m) ->
  StdSet.insert k (List.map fst m) = List.map fst m.
Proof.
  induction m as [| [k0 v0] m IH]; simpl; [tauto |].
  intros [Ha Ho] Hin. destruct (compare_spec k k0) as [E | L | G].
  - reflexivity.
  - exfalso. destruct Hin as [-> | Hin]; [now apply lt_irrefl in L |].
    apply in_map_iff in Hin. destruct Hin as (e & <- & Hin).
    apply (above_In _ _ _ Ha) in Hin. simpl in Hin. order.
  - f_equal. apply IH; [exact Ho |].
    destruct Hin as [-> | Hin]; [now apply lt_irrefl in G | exact Hin].
Qed.

Lemma insert_range_present (xs : list float) m :
  StdMap.ordered m -> incl xs (List.map fst m) ->
  StdSet.insert_range xs (List.map fst m) = List.map fst m.
Proof.
  intros Ho. unfold StdSet.insert_range.
  induction xs as [| x xs IH]; simpl; [reflexivity |].
  intros Hincl. rewrite insert_present; [| exact Ho | apply Hincl; now left].
  apply IH. intros y Hy. apply Hincl. now right.
Qed.

End Facts.

End MapFacts.

(** ** Key sets do not depend on the stored values

    Two maps over different value types that hold the same key sequence
    still hold the same key sequence after the same mutation. *)

Module KeyFacts.
Import TimeFacts MapFacts.

Section TwoMaps.
Context {A B : Type}.
Implicit Types (ma : StdMap.map A) (mb : StdMap.map B).

Lemma assign_keys t (a : A) (b : B) ma mb :
  List.map fst ma = List.map fst mb ->
  List.map fst (StdMap.assign t a ma) = List.map fst (StdMap.assign t b mb).
Proof.
  revert mb. induction ma as [| [ka va] ma IH]; intros [| [kb vb] mb];
    simpl; try discriminate; [reflexivity |].
  intros [= -> E]. destruct (t ?= kb); simpl; try congruence; f_equal; auto.
Qed.

Lemma erase_keys t ma mb :
  List.map fst ma = List.map fst mb ->
  List.map fst (StdMap.erase_key t ma) = List.map fst (StdMap.erase_key t mb).
Proof.
  revert mb. induction ma as [| [ka va] ma IH]; intros [| [kb vb] mb];
    simpl; try discriminate; [reflexivity |].
  intros [= -> E]. destruct (t ?= kb); simpl; try congruence; f_equal; auto.
Qed.

Lemma lower_bound_keys t ma mb :
  List.map fst ma = List.map fst mb ->
  StdMap.lower_bound t ma = StdMap.lower_bound t mb.
Proof.
  revert mb. induction ma as [| [ka va] ma IH]; intros [| [kb vb] mb];
    simpl; try discriminate; [reflexivity |].
  intros [= -> E]. destruct (Time.ltb kb t); f_equal; auto.
Qed.

Lemma crop_keys t ma mb :
  List.map fst ma = List.map fst mb ->
  List.map fst (Spline.crop t ma) = List.map fst (Spline.crop t mb).
Proof.
  intros E. rewrite !crop_firstn, <- !firstn_map, E.
  now rewrite (lower_bound_keys t ma mb E).
Qed.

End TwoMaps.

End KeyFacts.

(** ** The shared control flow of [at] *)

Module EvalFacts.
Import TimeFacts MapFacts.

Section Facts.
Context {T : Type}.
Variables (no_value : T) (past_the_end : (float * T)%type).
Variable between : float * T -> float * T -> float -> T.
Implicit Types (m : StdMap.map T) (t : float) (e a b : (float * T)%type).

Local Abbreviation eval := (Knots.eval no_value past_the_end between).

Lemma eval_empty t : eval [] t = no_value.
Proof. reflexivity. Qed.

Lemma eval_single e t : eval [e] t = snd e.
Proof. reflexivity. Qed.

Lemma upper_bound_app t (l1 l2 : StdMap.map T) :
  (forall e, In e l1 -> fst e <= t) ->
  StdMap.upper_bound t (l1 ++ l2) = (length l1 + StdMap.upper_bound t l2)%nat.
Proof.
  induction l1 as [| [k v] l1 IH]; simpl; intros H; [reflexivity |].
  assert (Hk : Time.ltb t k = false)
    by (apply ltb_ge; apply (H (k, v)); now left).
  rewrite Hk, IH; auto.
Qed.

Lemma smallest_first m e :
  StdMap.ordered m -> Knots.smallest m e -> exists m', m = e :: m'.
Proof.
  destruct m as [| x m]; intros Ho [Hin Hmin]; [destruct Hin |].
  destruct Hin as [-> | Hin]; [now exists m |].
  exfalso. destruct Ho as [Ha _].
  apply (above_In _ _ _ Ha) in Hin.
  specialize (Hmin x (or_introl eq_refl)). order.
Qed.

Lemma largest_last m e :
  StdMap.ordered m -> Knots.largest m e -> exists l, m = l ++ [e].
Proof.
  intros Ho [Hin Hmax].
  destruct (exists_last (l := m)) as (l & x & ->);
    [intros ->; destruct Hin |].
  apply in_app_or in Hin. destruct Hin as [Hin | [-> | []]];
    [| now exists l].
  exfalso. apply ordered_app in Ho. destruct Ho as (_ & _ & Hlt).
  specialize (Hlt e x Hin (or_introl eq_refl)).
  assert (Hx : fst x <= fst e)
    by (apply Hmax, in_or_app; right; now left).
  order.
Qed.

Lemma largest_exists_last m :
  StdMap.ordered m -> m <> [] ->
  exists l e, m = l ++ [e] /\ forall x, In x m -> fst x <= fst e.
Proof.
  intros Ho Hne. destruct (exists_last Hne) as (l & e & ->).
  exists l, e. split; [reflexivity |]. intros x Hx.
  apply ordered_app in Ho. destruct Ho as (_ & _ & Hlt).
  apply in_app_or in Hx. destruct Hx as [Hx | [<- | []]].
  - specialize (Hlt x e Hx (or_introl eq_refl)). order.
  - apply Qcle_refl.
Qed.

Lemma key_determines_knot m e e' :
  StdMap.ordered m -> In e m -> In e' m -> fst e = fst e' -> e = e'.
Proof.
  destruct e as [k v], e' as [k' v']; simpl. intros Ho H H' <-.
  apply (find_In m k v Ho) in H. apply (find_In m k v' Ho) in H'.
  congruence.
Qed.

(** Before the first knot: the hold-first branch. *)
Lemma eval_before_first e m t : t < fst e -> eval (e :: m) t = snd e.
Proof.
  intros Hlt. destruct m as [| e2 m]; [reflexivity |].
  unfold Knots.eval; cbn.
  apply ltb_lt in Hlt. unfold Time.gtb. now rewrite Hlt.
Qed.

(** Inside a bracket: the last branch. *)
Lemma eval_bracket (l1 l2 : StdMap.map T) a b t :
  StdMap.ordered (l1 ++ a :: b :: l2) ->
  fst a <= t -> t < fst b ->
  eval (l1 ++ a :: b :: l2) t = between a b t.
Proof.
  intros Ho Hlo Hhi.
  assert (Hl1 : forall e, In e l1 -> fst e <= t).
  { intros e He. apply ordered_app in Ho. destruct Ho as (_ & _ & Hlt).
    specialize (Hlt e a He (or_introl eq_refl)). order. }
  assert (Hub : StdMap.upper_bound t (l1 ++ a :: b :: l2) = S (length l1)).
  { rewrite upper_bound_app by exact Hl1. destruct a as [ka va], b as [kb vb].
    simpl in *. apply ltb_ge in Hlo. apply ltb_lt in Hhi.
    rewrite Hlo, Hhi. lia. }
  assert (Hfirst : Time.gtb (fst (nth 0 (l1 ++ a :: b :: l2) past_the_end)) t = false).
  { unfold Time.gtb. apply ltb_ge. destruct l1 as [| x l1]; simpl; [exact Hlo |].
    apply Hl1. now left. }
  unfold Knots.eval, StdMap.deref, StdMap.begin_, StdMap.end_, StdMap.size,
    StdMap.prev.
  rewrite Hub, Hfirst.
  assert (Hlen : length (l1 ++ a :: b :: l2) = S (S (length l1 + length l2)))
    by (rewrite length_app; simpl; lia).
  rewrite Hlen.
  assert (He : StdMap.empty (l1 ++ a :: b :: l2) = false)
    by (destruct l1; reflexivity).
  rewrite He.
  replace (Nat.eqb (S (S (length l1 + length l2))) 1) with false
    by (symmetry; apply Nat.eqb_neq; lia).
  replace (Nat.eqb (S (length l1)) (S (S (length l1 + length l2)))) with false
    by (symmetry; apply Nat.eqb_neq; lia).
  cbn [Nat.pred].
  rewrite nth_middle.
  change (l1 ++ a :: b :: l2) with (l1 ++ [a] ++ b :: l2).
  rewrite app_assoc.
  replace (S (length l1)) with (length (l1 ++ [a]))
    by (rewrite length_app; simpl; lia).
  now rewrite nth_middle.
Qed.

(** At or after the last knot: the hold-last branch. *)
Lemma eval_hold_last m e t :
  StdMap.ordered m -> Knots.largest m e -> fst e <= t -> eval m t = snd e.
Proof.
  intros Ho Hl Ht. destruct (largest_last m e Ho Hl) as [l ->].
  destruct Hl as [_ Hmax].
  assert (Hall : forall x, In x (l ++ [e]) -> fst x <= t).
  { intros x Hx. specialize (Hmax x Hx). order. }
  destruct l as [| x l]; [reflexivity |].
  assert (Hub : StdMap.upper_bound t ((x :: l) ++ [e]) = length ((x :: l) ++ [e])).
  { rewrite <- (app_nil_r ((x :: l) ++ [e])) at 1.
    rewrite upper_bound_app by exact Hall. simpl. lia. }
  unfold Knots.eval, StdMap.deref, StdMap.begin_, StdMap.end_, StdMap.size,
    StdMap.prev.
  rewrite Hub, Nat.eqb_refl.
  assert (Hfirst : Time.gtb (fst (nth 0 ((x :: l) ++ [e]) past_the_end)) t = false).
  { unfold Time.gtb. apply ltb_ge. simpl. apply Hall. now left. }
  rewrite Hfirst.
  replace (Nat.eqb (length ((x :: l) ++ [e])) 1) with false
    by (symmetry; apply Nat.eqb_neq; rewrite length_app; simpl; lia).
  cbn [StdMap.empty app].
  replace (Nat.pred (length (x :: l ++ [e]))) with (length (x :: l))
    by (simpl; rewrite length_app; simpl; lia).
  change (x :: l ++ [e]) with ((x :: l) ++ e :: []).
  now rewrite nth_middle.
Qed.

(** At or before the first knot, for a policy that returns the first
    knot's value at the start of a bracket. *)
Lemma eval_hold_first m e t :
  (forall a b, fst a < fst b -> between a b (fst a) = snd a) ->
  StdMap.ordered m -> Knots.smallest m e -> t <= fst e -> eval m t = snd e.
Proof.
  intros Hstart Ho Hs Ht. destruct (smallest_first m e Ho Hs) as [m' ->].
  apply Qcle_lt_or_eq in Ht. destruct Ht as [Hlt | ->].
  - now apply eval_before_first.
  - destruct m' as [| b l2]; [reflexivity |].
    assert (Heb : fst e < fst b)
      by (destruct Ho as [Ha _]; apply (above_In _ _ _ Ha); now left).
    change (e :: b :: l2) with ([] ++ e :: b :: l2) in Ho |- *.
    rewrite (eval_bracket [] l2 e b (fst e)).
    + now apply Hstart.
    + exact Ho.
    + apply Qcle_refl.
    + exact Heb.
Qed.

(** An interior time has a bracket. *)
Lemma bracket_exists m t :
  StdMap.ordered m ->
  (exists e, In e m /\ fst e <= t) -> (exists e, In e m /\ t < fst e) ->
  exists a b, Knots.adjacent m a b /\ fst a <= t /\ t < fst b.
Proof.
  induction m as [| x m IH]; intros Ho Hlo Hhi.
  - destruct Hlo as (e & [] & _).
  - destruct Ho as [Ha Ho]. destruct m as [| y m].
    + exfalso. destruct Hlo as (e & [<- | []] & He).
      destruct Hhi as (e' & [<- | []] & He'). order.
    + assert (Hxy : fst x < fst y) by (apply (above_In _ _ _ Ha); now left).
      destruct (Qclt_le_dec t (fst y)) as [Hty | Hyt].
      * exists x, y. split; [now exists [], m |]. split; [| exact Hty].
        destruct Hlo as (e & [<- | Hin] & He); [exact He |].
        apply (above_In _ _ _ Ha) in Hin. order.
      * destruct IH as (a & b & (l1 & l2 & E) & Hab).
        -- exact Ho.
        -- exists y. split; [now left | exact Hyt].
        -- destruct Hhi as (e & [<- | Hin] & He); [exfalso; order |].
           now exists e.
        -- exists a, b. split; [| exact Hab].
           exists (x :: l1), l2. simpl. now rewrite E.
Qed.

Lemma adjacent_In m a b : Knots.adjacent m a b -> In a m /\ In b m.
Proof.
  intros (l1 & l2 & ->). split; apply in_or_app; right; simpl; auto.
Qed.

(** No knot lies strictly between two neighbours. *)
Lemma adjacent_gap m a b e :
  StdMap.ordered m -> Knots.adjacent m a b -> In e m ->
  fst e <= fst a \/ fst b <= fst e.
Proof.
  intros Ho (l1 & l2 & ->) Hin.
  apply ordered_app in Ho. destruct Ho as (_ & [_ [Hb _]] & Hlt).
  apply in_app_or in Hin. destruct Hin as [Hin | [<- | [<- | Hin]]].
  - left. specialize (Hlt e a Hin (or_introl eq_refl)). order.
  - left. apply Qcle_refl.
  - right. apply Qcle_refl.
  - right. apply (above_In _ _ _ Hb) in Hin. order.
Qed.

Lemma bracket_unique m t a b a' b' :
  StdMap.ordered m ->
  Knots.adjacent m a b -> fst a <= t -> t < fst b ->
  Knots.adjacent m a' b' -> fst a' <= t -> t < fst b' ->
  a' = a /\ b' = b.
Proof.
  intros Ho Hadj Ha Hb Hadj' Ha' Hb'.
  destruct (adjacent_In _ _ _ Hadj) as [Ia Ib].
  destruct (adjacent_In _ _ _ Hadj') as [Ia' Ib'].
  split; apply (key_determines_knot m); auto.
  - destruct (adjacent_gap m a b a' Ho Hadj Ia');
      destruct (adjacent_gap m a' b' a Ho Hadj' Ia); order.
  - destruct (adjacent_gap m a b b' Ho Hadj Ib');
      destruct (adjacent_gap m a' b' b Ho Hadj' Ib); order.
Qed.

(** At a knot time, for a policy that returns the first knot's value
    at the start of a bracket. *)
Lemma eval_at_knot m e :
  (forall a b, fst a < fst b -> between a b (fst a) = snd a) ->
  StdMap.ordered m -> In e m -> eval m (fst e) = snd e.
Proof.
  intros Hstart Ho Hin.
  destruct (in_split _ _ Hin) as (l1 & l2 & ->).
  destruct l2 as [| b l2].
  - apply eval_hold_last; [exact Ho | | apply Qcle_refl].
    split; [exact Hin |]. intros x Hx.
    apply ordered_app in Ho. destruct Ho as (_ & _ & Hlt).
    apply in_app_or in Hx. destruct Hx as [Hx | [<- | []]].
    + specialize (Hlt x e Hx (or_introl eq_refl)). order.
    + apply Qcle_refl.
  - assert (Heb : fst e < fst b).
    { apply ordered_app in Ho. destruct Ho as (_ & [Ha _] & _).
      apply (above_In _ _ _ Ha). now left. }
    rewrite eval_bracket; [now apply Hstart | exact Ho | apply Qcle_refl | exact Heb].
Qed.

Lemma interior_bracket m t :
  StdMap.ordered m -> Knots.interior m t ->
  exists a b, Knots.adjacent m a b /\ fst a <= t /\ t < fst b
    /\ (forall a' b', Knots.adjacent m a' b' -> fst a' <= t -> t < fst b' ->
          a' = a /\ b' = b)
    /\ eval m t = between a b t.
Proof.
  intros Ho [(e & He & Het) Hhi].
  destruct (bracket_exists m t Ho) as (a & b & Hadj & Ha & Hb); auto.
  { exists e. split; [exact He | order]. }
  exists a, b.
  split; [exact Hadj |]. split; [exact Ha |]. split; [exact Hb |]. split.
  - intros a' b' Hadj' Ha' Hb'.
    exact (bracket_unique m t a b a' b' Ho Hadj Ha Hb Hadj' Ha' Hb').
  - destruct Hadj as (l1 & l2 & ->). now apply eval_bracket.
Qed.

End Facts.

End EvalFacts.

(** ** The two evaluation policies *)

Module PolicyFacts.
Import TimeFacts MapFacts EvalFacts.

Lemma bool_at_eval (m : StdMap.map bool) (t : float) :
  SplineBool.at_ m t
  = Knots.eval false SplineBool.past_the_end Knots.step_between m t.
Proof. reflexivity. Qed.

Lemma quat_at_eval {Quat : Type} {Quat_ctor : DefaultConstructible Quat}
    (slerp : Quat -> Quat -> Float32.value -> Quat) (m : StdMap.map Quat) (t : float) :
  SplineQuat.at_ slerp m t
  = Knots.eval construct (Time.of_Z 0, construct) (Knots.slerp_between slerp) m t.
Proof. reflexivity. Qed.

Lemma step_start {T : Type} (a b : float * T) :
  fst a < fst b -> Knots.step_between a b (fst a) = snd a.
Proof. reflexivity. Qed.

(** At the start of a bracket the local parameter is +0. *)
Lemma local_parameter_start (k1 k2 : float) :
  k1 < k2 -> Knots.local_parameter k1 k2 k1 = Float32.Num 0.
Proof.
  intros H. unfold Knots.local_parameter.
  rewrite Float32Facts.sub_self.
  apply Float32Facts.div_zero_positive.
  now apply Float32Facts.sub_positive.
Qed.

Lemma slerp_start {T : Type} (slerp : T -> T -> Float32.value -> T) :
  (forall q0 q1, slerp q0 q1 (Float32.Num 0) = q0) ->
  forall a b, fst a < fst b -> Knots.slerp_between slerp a b (fst a) = snd a.
Proof.
  intros H a b Hab. unfold Knots.slerp_between.
  now rewrite local_parameter_start.
Qed.

Lemma planar_slerp_start (q0 q1 : Planar.Rot) :
  Planar.slerp q0 q1 (Float32.Num 0) = q0.
Proof. unfold Planar.slerp, Planar.Rot. ring. Qed.

(** Concrete maps are checked to be ordered by evaluation. *)
Ltac ordered_by_computation :=
  repeat (split || constructor); reflexivity.

End PolicyFacts.

(** ** The primary template's [at], as modelled *)

Module PrimaryFacts.
Import TimeFacts MapFacts EvalFacts.

Section Facts.
Context {T : Type} {T_ctor : DefaultConstructible T}.
Variable cubic_unit_spline : Float32.value -> T -> T -> T -> T -> T.
Variable tangent : StdMap.map T -> StdMap.iterator -> T.
Implicit Types (m : StdMap.map T) (t : float) (e a b : (float * T)%type).

Local Abbreviation at_ := (SplinePrimary.at_ cubic_unit_spline tangent).

Lemma primary_hold_first m e t :
  StdMap.ordered m -> Knots.smallest m e -> t <= fst e -> at_ m t = snd e.
Proof.
  intros Ho Hs Ht. destruct (smallest_first m e Ho Hs) as [m' ->].
  destruct m' as [| b l]; [reflexivity |].
  unfold SplinePrimary.at_; cbn.
  apply leb_le in Ht. now rewrite Ht.
Qed.

Lemma primary_hold_last m e t :
  StdMap.ordered m -> Knots.largest m e -> fst e <= t -> at_ m t = snd e.
Proof.
  intros Ho Hl Ht. destruct (largest_last m e Ho Hl) as [l ->].
  destruct l as [| x l]; [reflexivity |].
  assert (Hxe : fst x < fst e).
  { apply ordered_app in Ho. destruct Ho as (_ & _ & Hlt).
    apply Hlt; now left. }
  set (m := (x :: l) ++ [e]).
  assert (Hfirst : Time.leb t (fst (nth 0 m (Time.of_Z 0, construct))) = false)
    by (apply leb_gt; simpl; order).
  assert (Hlast : nth (Nat.pred (length m)) m (Time.of_Z 0, construct) = e).
  { replace (Nat.pred (length m)) with (length (x :: l))
      by (unfold m; rewrite length_app; simpl; lia).
    apply nth_middle. }
  assert (Hsize : Nat.eqb (length m) 1 = false)
    by (apply Nat.eqb_neq; unfold m; rewrite length_app; simpl; lia).
  unfold SplinePrimary.at_, StdMap.deref, StdMap.begin_, StdMap.end_,
    StdMap.size, StdMap.prev.
  rewrite Hsize, Hfirst, Hlast.
  apply leb_le in Ht. now rewrite Ht.
Qed.

Lemma lower_bound_app t (l1 l2 : StdMap.map T) :
  (forall e, In e l1 -> fst e < t) ->
  StdMap.lower_bound t (l1 ++ l2) = (length l1 + StdMap.lower_bound t l2)%nat.
Proof.
  induction l1 as [| [k v] l1 IH]; simpl; intros H; [reflexivity |].
  assert (Hk : Time.ltb k t = true)
    by (apply ltb_lt; apply (H (k, v)); now left).
  rewrite Hk, IH; auto.
Qed.

(** Inside a bracket, strictly before the last knot. *)
Lemma primary_bracket (l1 l2 : StdMap.map T) a b t :
  let m := l1 ++ a :: b :: l2 in
  StdMap.ordered m ->
  fst a < t -> t <= fst b -> (exists e, In e m /\ t < fst e) ->
  at_ m t
  = cubic_unit_spline (Knots.local_parameter (fst a) (fst b) t) (snd a) (snd b)
      (tangent m (length l1)) (tangent m (S (length l1))).
Proof.
  intros m Ho Hlo Hhi [z [Hz Htz]].
  assert (Ho' := Ho). apply ordered_app in Ho'. destruct Ho' as (_ & Hab & Hlt).
  assert (Hl1 : forall e, In e l1 -> fst e < t).
  { intros e He. specialize (Hlt e a He (or_introl eq_refl)). order. }
  assert (Hlb : StdMap.lower_bound t m = S (length l1)).
  { unfold m. rewrite lower_bound_app by exact Hl1.
    destruct a as [ka va], b as [kb vb]. simpl in *.
    apply ltb_lt in Hlo. apply ltb_ge in Hhi. rewrite Hlo, Hhi. lia. }
  assert (Hlen : length m = S (S (length l1 + length l2)))
    by (unfold m; rewrite length_app; simpl; lia).
  assert (Hfirst : Time.leb t (fst (nth 0 m (Time.of_Z 0, construct))) = false).
  { apply leb_gt. unfold m. destruct l1 as [| x l1]; simpl; [exact Hlo |].
    apply Hl1. now left. }
  destruct (largest_exists_last m Ho) as (l & w & Em & Hw);
    [unfold m; destruct l1; discriminate |].
  assert (Hlast : Time.leb (fst (nth (Nat.pred (length m)) m (Time.of_Z 0, construct))) t
                  = false).
  { apply leb_gt. rewrite Em at 2.
    replace (Nat.pred (length m)) with (length l)
      by (rewrite Em, length_app; simpl; lia).
    rewrite nth_middle. specialize (Hw z Hz). order. }
  unfold SplinePrimary.at_, StdMap.deref, StdMap.begin_, StdMap.end_,
    StdMap.size, StdMap.prev.
  fold m. rewrite Hlb, Hfirst, Hlast, Hlen.
  assert (He : StdMap.empty m = false) by (unfold m; destruct l1; reflexivity).
  rewrite He.
  replace (Nat.eqb (S (S (length l1 + length l2))) 1) with false
    by (symmetry; apply Nat.eqb_neq; lia).
  cbn [Nat.pred].
  assert (Ea : nth (length l1) m (Time.of_Z 0, construct) = a)
    by (unfold m; apply nth_middle).
  assert (Eb : nth (S (length l1)) m (Time.of_Z 0, construct) = b).
  { unfold m. change (l1 ++ a :: b :: l2) with (l1 ++ [a] ++ b :: l2).
    rewrite app_assoc.
    replace (S (length l1)) with (length (l1 ++ [a]))
      by (rewrite length_app; simpl; lia).
    apply nth_middle. }
  now rewrite Ea, Eb.
Qed.

(** A time after some knot and not after every knot has a bracket whose
    left end lies strictly before it. *)
Lemma bracket_exists_left_open m t :
  StdMap.ordered m ->
  (exists e, In e m /\ fst e < t) -> (exists e, In e m /\ t <= fst e) ->
  exists a b, Knots.adjacent m a b /\ fst a < t /\ t <= fst b.
Proof.
  induction m as [| x m IH]; intros Ho Hlo Hhi.
  - destruct Hlo as (e & [] & _).
  - destruct Ho as [Ha Ho]. destruct m as [| y m].
    + exfalso. destruct Hlo as (e & [<- | []] & He).
      destruct Hhi as (e' & [<- | []] & He'). order.
    + assert (Hxy : fst x < fst y) by (apply (above_In _ _ _ Ha); now left).
      destruct (Qclt_le_dec (fst y) t) as [Hyt | Hty].
      * destruct IH as (a & b & (l1 & l2 & E) & Hab).
        -- exact Ho.
        -- exists y. split; [now left | exact Hyt].
        -- destruct Hhi as (e & [<- | Hin] & He); [exfalso; order |].
           now exists e.
        -- exists a, b. split; [| exact Hab].
           exists (x :: l1), l2. simpl. now rewrite E.
      * exists x, y. split; [now exists [], m |]. split; [| exact Hty].
        destruct Hlo as (e & [<- | Hin] & He); [exact He |].
        exfalso. destruct Ho as [Hay _].
        destruct Hin as [<- | Hin]; [order |].
        apply (above_In _ _ _ Hay) in Hin. order.
Qed.

Lemma bracket_unique_left_open m t a b a' b' :
  StdMap.ordered m ->
  Knots.adjacent m a b -> fst a < t -> t <= fst b ->
  Knots.adjacent m a' b' -> fst a' < t -> t <= fst b' ->
  a' = a /\ b' = b.
Proof.
  intros Ho Hadj Ha Hb Hadj' Ha' Hb'.
  destruct (adjacent_In _ _ _ Hadj) as [Ia Ib].
  destruct (adjacent_In _ _ _ Hadj') as [Ia' Ib'].
  split; apply (key_determines_knot m); auto.
  - destruct (adjacent_gap m a b a' Ho Hadj Ia');
      destruct (adjacent_gap m a' b' a Ho Hadj' Ia); order.
  - destruct (adjacent_gap m a b b' Ho Hadj Ib');
      destruct (adjacent_gap m a' b' b Ho Hadj' Ib); order.
Qed.

End Facts.

End PrimaryFacts.

(** ** Single-channel splines: evaluation *)

Module SplineSpec.
Import TimeFacts MapFacts EvalFacts PolicyFacts.




(** C2, as stated, fails: with knots (1, true), (2, false), (3, true) and
    query time 2, no pair of adjacent knots with [k1.time < 2 <= k2.time]
    has the value that [at(2)] returns as its earlier knot. *)
Lemma bracket_strict_left_refuted :
  ~ (forall (m : StdMap.map bool) (t : float),
        StdMap.ordered m -> (2 <= length m)%nat -> Knots.interior m t ->
        exists a b, Knots.adjacent m a b
          /\ fst a < t /\ t <= fst b
          /\ SplineBool.at_ m t = snd a).
Proof.
  intros H.
  specialize (H [(Time.of_Z 1, true); (Time.of_Z 2, false); (Time.of_Z 3, true)]
                (Time.of_Z 2)).
  destruct H as (a & b & (l1 & l2 & E) & Hlt & _ & Hat).
  - ordered_by_computation.
  - simpl; lia.
  - split.
    + exists (Time.of_Z 1, true). split; [now left | reflexivity].
    + exists (Time.of_Z 3, true). split; [simpl; auto | reflexivity].
  - destruct l1 as [| x1 [| x2 [| x3 l1]]]; simpl in E.
    + injection E as <- _. vm_compute in Hat. discriminate Hat.
    + injection E as _ <- _ _. revert Hlt. vm_compute. discriminate.
    + injection E as _ _ _ E. discriminate E.
    + injection E as _ _ _ E. destruct l1; discriminate E.
Qed.

(** C2, amended.  For an interior query time, the two [at] bodies of the
    header use the one pair of adjacent knots with
    [k1.time <= t < k2.time]: a rotation spline returns [slerp] of the two
    values at the local parameter computed in [float] arithmetic, a boolean
    spline the value of [k1].  The primary template, as the specification
    describes it, uses the one pair with [k1.time < t <= k2.time] and
    returns the cubic of the two values and the two tangent estimates at
    the local parameter. *)
Theorem at_bracket {Quat : Type} {Quat_ctor : DefaultConstructible Quat}
    (slerp : Quat -> Quat -> Float32.value -> Quat)
    {T : Type} {T_ctor : DefaultConstructible T}
    (cubic_unit_spline : Float32.value -> T -> T -> T -> T -> T)
    (tangent : StdMap.map T -> StdMap.iterator -> T) :
  (forall (m : StdMap.map Quat) (t : float),
      StdMap.ordered m -> (2 <= length m)%nat -> Knots.interior m t ->
      exists a b, Knots.adjacent m a b
        /\ fst a <= t /\ t < fst b
        /\ (forall a' b', Knots.adjacent m a' b' -> fst a' <= t -> t < fst b' ->
              a' = a /\ b' = b)
        /\ SplineQuat.at_ slerp m t
           = slerp (snd a) (snd b)
               (Float32.div (Float32.sub t (fst a)) (Float32.sub (fst b) (fst a))))
  /\ (forall (m : StdMap.map bool) (t : float),
      StdMap.ordered m -> (2 <= length m)%nat -> Knots.interior m t ->
      exists a b, Knots.adjacent m a b
        /\ fst a <= t /\ t < fst b
        /\ (forall a' b', Knots.adjacent m a' b' -> fst a' <= t -> t < fst b' ->
              a' = a /\ b' = b)
        /\ SplineBool.at_ m t = snd a)
  /\ (forall (m : StdMap.map T) (t : float),
      StdMap.ordered m -> (2 <= length m)%nat -> Knots.interior m t ->
      exists l1 l2 a b, m = l1 ++ a :: b :: l2
        /\ fst a < t /\ t <= fst b
        /\ (forall a' b', Knots.adjacent m a' b' -> fst a' < t -> t <= fst b' ->
              a' = a /\ b' = b)
        /\ SplinePrimary.at_ cubic_unit_spline tangent m t
           = cubic_unit_spline
               (Float32.div (Float32.sub t (fst a)) (Float32.sub (fst b) (fst a)))
               (snd a) (snd b)
               (tangent m (length l1)) (tangent m (S (length l1)))).
Proof.
  split; [| split]; intros m t Ho _ Hint.
  - rewrite quat_at_eval. now apply interior_bracket.
  - rewrite bool_at_eval. now apply interior_bracket.
  - destruct Hint as [Hlo (z & Hz & Htz)].
    destruct (PrimaryFacts.bracket_exists_left_open m t Ho Hlo)
      as (a & b & Hadj & Ha & Hb).
    { exists z. split; [exact Hz | order]. }
    assert (Hadj' := Hadj). destruct Hadj' as (l1 & l2 & E).
    exists l1, l2, a, b.
    split; [exact E |]. split; [exact Ha |]. split; [exact Hb |]. split.
    + intros a' b' Hadj' Ha' Hb'.
      exact (PrimaryFacts.bracket_unique_left_open m t a b a' b'
               Ho Hadj Ha Hb Hadj' Ha' Hb').
    + subst m.
      apply (PrimaryFacts.primary_bracket cubic_unit_spline tangent
               l1 l2 a b t Ho Ha Hb).
      now exists z.
Qed.

Lemma at_bracket_witness :
  let m : StdMap.map bool :=
    [(Time.of_Z 1, true); (Time.of_Z 2, false); (Time.of_Z 3, true)] in
  StdMap.ordered m /\ (2 <= length m)%nat /\ Knots.interior m (Time.of_Z 2)
  /\ exists a b, Knots.adjacent m a b
        /\ fst a <= Time.of_Z 2 /\ Time.of_Z 2 < fst b
        /\ (forall a' b', Knots.adjacent m a' b' ->
              fst a' <= Time.of_Z 2 -> Time.of_Z 2 < fst b' -> a' = a /\ b' = b)
        /\ SplineBool.at_ m (Time.of_Z 2) = snd a.
Proof.
  intros m.
  assert (Ho : StdMap.ordered m) by ordered_by_computation.
  assert (Hlen : (2 <= length m)%nat) by (simpl; lia).
  assert (Hint : Knots.interior m (Time.of_Z 2)).
  { split.
    - exists (Time.of_Z 1, true). split; [now left | reflexivity].
    - exists (Time.of_Z 3, true). split; [simpl; auto | reflexivity]. }
  split; [exact Ho |]. split; [exact Hlen |]. split; [exact Hint |].
  exact (proj1 (proj2 (at_bracket Planar.slerp
                         (fun (_ : Float32.value) (p0 _ _ _ : bool) => p0)
                         (fun _ _ => false)))
           m (Time.of_Z 2) Ho Hlen Hint).
Defined.

(** C3.  The boolean spline holding exactly the knots (1, true) and
    (3, false) evaluates to true at 0, 1 and 2 and to false at 3 and 10.
    In general the step policy returns the value of the earlier knot of
    the bracket, and at a knot time it returns that knot's own value, so
    the result changes only at knot times. *)
Theorem step_policy :
  (let s := SplineBool.set (Time.of_Z 3) false
              (SplineBool.set (Time.of_Z 1) true []) in
   s = [(Time.of_Z 1, true); (Time.of_Z 3, false)]
   /\ SplineBool.at_ s (Time.of_Z 0) = true
   /\ SplineBool.at_ s (Time.of_Z 1) = true
   /\ SplineBool.at_ s (Time.of_Z 2) = true
   /\ SplineBool.at_ s (Time.of_Z 3) = false
   /\ SplineBool.at_ s (Time.of_Z 10) = false)
  /\ (forall (m : StdMap.map bool) a b t,
        StdMap.ordered m -> Knots.adjacent m a b ->
        fst a <= t -> t < fst b -> SplineBool.at_ m t = snd a)
  /\ (forall (m : StdMap.map bool) e,
        StdMap.ordered m -> In e m -> SplineBool.at_ m (fst e) = snd e).
Proof.
  split; [repeat split |]. split.
  - intros m a b t Ho (l1 & l2 & ->) Hlo Hhi.
    rewrite bool_at_eval. now rewrite eval_bracket.
  - intros m e Ho Hin. rewrite bool_at_eval.
    apply eval_at_knot; auto.
Qed.

Lemma step_policy_witness :
  let m : StdMap.map bool :=
    [(Time.of_Z 1, true); (Time.of_Z 3, false); (Time.of_Z 4, true)] in
  StdMap.ordered m
  /\ Knots.adjacent m (Time.of_Z 1, true) (Time.of_Z 3, false)
  /\ Time.of_Z 1 <= Time.of_Z 2 /\ Time.of_Z 2 < Time.of_Z 3
  /\ In (Time.of_Z 3, false) m
  /\ SplineBool.at_ m (Time.of_Z 2) = true
  /\ SplineBool.at_ m (Time.of_Z 3) = false.
Proof.
  intros m.
  assert (Ho : StdMap.ordered m) by ordered_by_computation.
  assert (Hadj : Knots.adjacent m (Time.of_Z 1, true) (Time.of_Z 3, false))
    by (now exists [], [(Time.of_Z 4, true)]).
  assert (Hlo : Time.of_Z 1 <= Time.of_Z 2) by (vm_compute; discriminate).
  assert (Hhi : Time.of_Z 2 < Time.of_Z 3) by reflexivity.
  assert (Hin : In (Time.of_Z 3, false) m) by (simpl; auto).
  destruct step_policy as (_ & Hstep & Hknot).
  repeat (split; [assumption |]). split.
  - exact (Hstep m _ _ _ Ho Hadj Hlo Hhi).
  - exact (Hknot m _ Ho Hin).
Defined.

(** C4, as stated, fails: the local parameter is a [float] quotient of
    [float] differences and need not be a number in [0, 1].  With knots at
    -3 * 2^126 and 3 * 2^126 and query time 2^127, both differences
    overflow to +infinity and the parameter handed to [slerp] is NaN. *)
Lemma unit_parameter_refuted :
  ~ (forall (Quat : Type) (Quat_ctor : DefaultConstructible Quat)
       (slerp : Quat -> Quat -> Float32.value -> Quat)
       (m : StdMap.map Quat) (t : float),
        StdMap.ordered m -> (2 <= length m)%nat -> Knots.interior m t ->
        exists k1 k2 u,
          Knots.adjacent m k1 k2 /\ Float32.unit_interval u
          /\ SplineQuat.at_ slerp m t = slerp (snd k1) (snd k2) u).
Proof.
  intros H.
  specialize (H Float32.value Float32.NaN (fun _ _ u => u)
                [(Time.of_Z (- 3 * 2 ^ 126), Float32.Num 0);
                 (Time.of_Z (3 * 2 ^ 126), Float32.Num 0)]
                (Time.of_Z (2 ^ 127))).
  destruct H as (k1 & k2 & u & _ & (q & Eu & _) & Hat).
  - ordered_by_computation.
  - simpl; lia.
  - split.
    + eexists. split; [now left | reflexivity].
    + eexists. split; [right; now left | reflexivity].
  - subst u. vm_compute in Hat. discriminate Hat.
Qed.

(** C4, amended.  For a rotation spline with at least two knots and an
    interior query time [t], [at(t)] is [slerp] of the values of the
    adjacent pair with [k1.time <= t < k2.time] at the parameter [u]
    obtained in [float] arithmetic as the quotient of the differences
    [t - k1.time] and [k2.time - k1.time]; nothing but the two knot values
    and [u] enters the result.  [u] is a number in [0, 1] unless the
    difference [t - k1.time] overflows to +infinity, and then [u] is
    NaN. *)
Theorem quat_at_interior {Quat : Type} {Quat_ctor : DefaultConstructible Quat}
    (slerp : Quat -> Quat -> Float32.value -> Quat)
    (m : StdMap.map Quat) (t : float) :
  StdMap.ordered m -> (2 <= length m)%nat -> Knots.interior m t ->
  exists k1 k2,
    Knots.adjacent m k1 k2 /\ fst k1 <= t /\ t < fst k2
    /\ let u := Float32.div (Float32.sub t (fst k1))
                             (Float32.sub (fst k2) (fst k1)) in
       SplineQuat.at_ slerp m t = slerp (snd k1) (snd k2) u
       /\ (Float32.sub t (fst k1) <> Float32.Inf false -> Float32.unit_interval u)
       /\ (Float32.sub t (fst k1) = Float32.Inf false -> u = Float32.NaN).
Proof.
  intros Ho _ Hint. rewrite quat_at_eval.
  destruct (interior_bracket construct (Time.of_Z 0, construct)
              (Knots.slerp_between slerp) m t Ho Hint)
    as (a & b & Hadj & Ha & Hb & _ & Hev).
  exists a, b. split; [exact Hadj |]. split; [exact Ha |]. split; [exact Hb |].
  assert (Hbelow : Float32.below (Float32.sub t (fst a))
                     (Float32.sub (fst b) (fst a))).
  { apply Float32Facts.sub_mono; [exact Ha | now apply Qclt_le_weak]. }
  assert (Hpos : Float32.positive (Float32.sub (fst b) (fst a))).
  { apply Float32Facts.sub_positive. order. }
  cbv zeta. split; [exact Hev |]. split.
  - intros Hfin. now apply Float32Facts.div_unit.
  - intros Hinf. rewrite Hinf in *. now apply Float32Facts.div_overflow.
Qed.

Lemma quat_at_interior_witness :
  let m : StdMap.map Planar.Rot :=
    [(Time.of_Z 1, Time.of_Z 10); (Time.of_Z 3, Time.of_Z 30);
     (Time.of_Z 4, Time.of_Z 0)] in
  StdMap.ordered m /\ (2 <= length m)%nat /\ Knots.interior m (Time.of_Z 2)
  /\ exists k1 k2,
       Knots.adjacent m k1 k2 /\ fst k1 <= Time.of_Z 2 /\ Time.of_Z 2 < fst k2
       /\ let u := Float32.div (Float32.sub (Time.of_Z 2) (fst k1))
                                (Float32.sub (fst k2) (fst k1)) in
          SplineQuat.at_ Planar.slerp m (Time.of_Z 2)
            = Planar.slerp (snd k1) (snd k2) u
          /\ (Float32.sub (Time.of_Z 2) (fst k1) <> Float32.Inf false ->
              Float32.unit_interval u)
          /\ (Float32.sub (Time.of_Z 2) (fst k1) = Float32.Inf false ->
              u = Float32.NaN).
Proof.
  intros m.
  assert (Ho : StdMap.ordered m) by ordered_by_computation.
  assert (Hlen : (2 <= length m)%nat) by (simpl; lia).
  assert (Hint : Knots.interior m (Time.of_Z 2)).
  { split.
    - exists (Time.of_Z 1, Time.of_Z 10). split; [now left | reflexivity].
    - exists (Time.of_Z 3, Time.of_Z 30). split; [simpl; auto | reflexivity]. }
  split; [exact Ho |]. split; [exact Hlen |]. split; [exact Hint |].
  exact (quat_at_interior Planar.slerp m (Time.of_Z 2) Ho Hlen Hint).
Defined.

(** C10.  A rotation spline with at least two knots passes through every
    stored knot: [at(ti)] is [qi] for each knot (ti, qi), provided [slerp]
    at parameter 0 returns its first argument.  The largest knot is
    reached by hold-last; every other knot starts the bracket that the
    search selects, with local parameter 0. *)
Theorem quat_at_knot {Quat : Type} {Quat_ctor : DefaultConstructible Quat}
    (slerp : Quat -> Quat -> Float32.value -> Quat) (m : StdMap.map Quat)
    (ti : float) (qi : Quat) :
  (forall q0 q1, slerp q0 q1 (Float32.Num 0) = q0) ->
  StdMap.ordered m -> (2 <= length m)%nat -> In (ti, qi) m ->
  SplineQuat.at_ slerp m ti = qi
  /\ (Knots.largest m (ti, qi)
      \/ exists k2, Knots.adjacent m (ti, qi) k2
           /\ Float32.div (Float32.sub ti ti) (Float32.sub (fst k2) ti)
              = Float32.Num 0
           /\ SplineQuat.at_ slerp m ti = slerp qi (snd k2) (Float32.Num 0)).
Proof.
  intros Hslerp Ho _ Hin.
  assert (Hat : SplineQuat.at_ slerp m ti = qi).
  { rewrite quat_at_eval.
    apply (eval_at_knot _ _ (Knots.slerp_between slerp) m (ti, qi));
      auto using slerp_start. }
  split; [exact Hat |].
  destruct (in_split _ _ Hin) as (l1 & l2 & E).
  destruct l2 as [| k2 l2].
  - left. split; [exact Hin |]. intros x Hx. subst m.
    apply ordered_app in Ho. destruct Ho as (_ & _ & Hlt).
    apply in_app_or in Hx. destruct Hx as [Hx | [<- | []]].
    + specialize (Hlt x (ti, qi) Hx (or_introl eq_refl)). simpl in *. order.
    + apply Qcle_refl.
  - right. exists k2. split; [now exists l1, l2 |].
    split; [| now rewrite Hat, Hslerp].
    apply (local_parameter_start ti (fst k2)). subst m.
    apply ordered_app in Ho. destruct Ho as (_ & [Ha _] & _).
    apply (above_In _ _ _ Ha). now left.
Qed.

Lemma quat_at_knot_witness :
  let m : StdMap.map Planar.Rot :=
    [(Time.of_Z 1, Time.of_Z 10); (Time.of_Z 3, Time.of_Z 30);
     (Time.of_Z 4, Time.of_Z 0)] in
  (forall q0 q1, Planar.slerp q0 q1 (Float32.Num 0) = q0)
  /\ StdMap.ordered m /\ (2 <= length m)%nat
  /\ In (Time.of_Z 3, Time.of_Z 30) m
  /\ SplineQuat.at_ Planar.slerp m (Time.of_Z 3) = Time.of_Z 30.
Proof.
  intros m.
  assert (Ho : StdMap.ordered m) by ordered_by_computation.
  assert (Hlen : (2 <= length m)%nat) by (simpl; lia).
  assert (Hin : In (Time.of_Z 3, Time.of_Z 30) m) by (simpl; auto).
  split; [exact planar_slerp_start |].
  split; [exact Ho |]. split; [exact Hlen |]. split; [exact Hin |].
  exact (proj1 (quat_at_knot Planar.slerp m _ _ planar_slerp_start Ho Hlen Hin)).
Defined.

End SplineSpec.

(** ** Single-channel splines: mutation *)

Module MutationSpec.
Import TimeFacts MapFacts PolicyFacts.

Section Generic.
Context {T : Type}.
Implicit Types (m : StdMap.map T) (t : float).

Lemma keys_filter (f : float -> bool) m :
  List.map fst (filter (fun e => f (fst e)) m) = filter f (List.map fst m).
Proof.
  induction m as [| e m IH]; simpl; [reflexivity |].
  destruct (f (fst e)); simpl; now rewrite IH.
Qed.

(** C7.  [crop(t)] removes exactly the knots at times [>= t]: the keys
    afterwards are the earlier keys below [t], each kept knot keeps its
    value, a [t] at or below every key empties the spline, and a [t]
    above every key changes nothing. *)
Theorem crop_spec m t :
  StdMap.ordered m ->
  Spline.keys (Spline.crop t m)
    = filter (fun k => Time.ltb k t) (Spline.keys m)
  /\ (forall e, In e (Spline.crop t m) <-> In e m /\ fst e < t)
  /\ ((forall k, In k (Spline.keys m) -> t <= k) -> Spline.crop t m = [])
  /\ ((forall k, In k (Spline.keys m) -> k < t) -> Spline.crop t m = m).
Proof.
  intros Ho.
  assert (Hin : forall e, In e (Spline.crop t m) <-> In e m /\ fst e < t).
  { intros e. rewrite crop_filter, filter_In, ltb_lt by exact Ho. tauto. }
  split; [| split; [exact Hin | split]].
  - rewrite (keys_ordered m Ho), (keys_ordered _ (ordered_crop t m Ho)).
    rewrite crop_filter by exact Ho.
    exact (keys_filter (fun k => Time.ltb k t) m).
  - intros Hall. destruct (Spline.crop t m) as [| e c] eqn:E; [reflexivity |].
    exfalso. assert (He : In e (e :: c)) by now left.
    apply Hin in He. destruct He as [He Hlt].
    assert (Hle : t <= fst e).
    { apply Hall. rewrite (keys_ordered m Ho). now apply in_map. }
    order.
  - intros Hall. rewrite crop_filter by exact Ho.
    apply forallb_filter_id. apply forallb_forall. intros e He.
    apply ltb_lt. apply Hall. rewrite (keys_ordered m Ho). now apply in_map.
Qed.

(** C8.  [erase(t)] removes the knot stored at exactly [t] and no other
    knot; when no knot is stored at [t] the spline is unchanged. *)
Theorem erase_spec m t :
  StdMap.ordered m ->
  (forall e, In e (Spline.erase t m) <-> In e m /\ fst e <> t)
  /\ Spline.has t (Spline.erase t m) = false
  /\ (Spline.has t m = false -> Spline.erase t m = m).
Proof.
  intros Ho. unfold Spline.erase.
  split; [intros e; now apply In_erase_key |]. split.
  - apply has_false.
    destruct (StdMap.find t (StdMap.erase_key t m)) as [v |] eqn:E;
      [| reflexivity].
    exfalso. apply find_In in E; [| now apply ordered_erase_key].
    apply In_erase_key in E; [| exact Ho]. now destruct E as [_ []].
  - intros Hno. apply erase_key_absent. now apply has_false.
Qed.

(** C9.  After [set(t, v1)] and then [set(t, v2)] the spline has a knot
    at [t], its value is [v2], it is the only knot at [t], and the state
    is the one a single [set(t, v2)] produces. *)
Theorem set_overwrites m t (v1 v2 : T) :
  StdMap.ordered m ->
  let m' := Spline.set t v2 (Spline.set t v1 m) in
  Spline.has t m' = true
  /\ StdMap.find t m' = Some v2
  /\ Knots.knots_at t m' = [(t, v2)]
  /\ m' = Spline.set t v2 m
  /\ StdMap.ordered m'.
Proof.
  intros Ho m'. unfold m', Spline.set.
  assert (Hf : StdMap.find t (StdMap.assign t v2 (StdMap.assign t v1 m)) = Some v2)
    by apply find_assign_same.
  assert (Ho' : StdMap.ordered (StdMap.assign t v2 (StdMap.assign t v1 m)))
    by (now do 2 apply ordered_assign).
  split; [apply has_find; now exists v2 |].
  split; [exact Hf |].
  split; [now apply knots_at_find |].
  split; [apply assign_assign | exact Ho'].
Qed.

End Generic.

Lemma crop_spec_witness :
  let m : StdMap.map bool :=
    [(Time.of_Z 1, true); (Time.of_Z 2, false); (Time.of_Z 3, true)] in
  StdMap.ordered m
  /\ Spline.keys (Spline.crop (Time.of_Z 2) m)
     = filter (fun k => Time.ltb k (Time.of_Z 2)) (Spline.keys m)
  /\ Spline.crop (Time.of_Z 2) m = [(Time.of_Z 1, true)].
Proof.
  intros m.
  assert (Ho : StdMap.ordered m) by ordered_by_computation.
  split; [exact Ho |]. split.
  - exact (proj1 (crop_spec m (Time.of_Z 2) Ho)).
  - reflexivity.
Defined.

Lemma erase_spec_witness :
  let m : StdMap.map bool :=
    [(Time.of_Z 1, true); (Time.of_Z 2, false); (Time.of_Z 3, true)] in
  StdMap.ordered m
  /\ Spline.has (Time.of_Z 2) (Spline.erase (Time.of_Z 2) m) = false
  /\ Spline.erase (Time.of_Z 2) m = [(Time.of_Z 1, true); (Time.of_Z 3, true)].
Proof.
  intros m.
  assert (Ho : StdMap.ordered m) by ordered_by_computation.
  split; [exact Ho |]. split.
  - exact (proj1 (proj2 (erase_spec m (Time.of_Z 2) Ho))).
  - reflexivity.
Defined.

Lemma set_overwrites_witness :
  let m : StdMap.map bool := [(Time.of_Z 1, true); (Time.of_Z 3, true)] in
  StdMap.ordered m
  /\ StdMap.find (Time.of_Z 2)
       (Spline.set (Time.of_Z 2) false (Spline.set (Time.of_Z 2) true m))
     = Some false.
Proof.
  intros m.
  assert (Ho : StdMap.ordered m) by ordered_by_computation.
  split; [exact Ho |].
  exact (proj1 (proj2 (set_overwrites m (Time.of_Z 2) true false Ho))).
Defined.

End MutationSpec.

(** ** Multi-channel splines *)

Module SplinesSpec.
Import TimeFacts MapFacts EvalFacts PolicyFacts KeyFacts.
Import Splines.

Lemma shape_keys (ks : list float) : List.map fst (shape ks) = ks.
Proof.
  unfold shape. rewrite map_map. simpl. apply map_id.
Qed.

Lemma lockstep_create (T : Channel) (Ts : list Channel) :
  lockstep [] (create T Ts).
Proof.
  revert T. induction Ts as [| T' Ts IH]; intros T; simpl; auto.
Qed.

Lemma lockstep_set {Ts} (s : Splines Ts) ks t (args : tuple Ts) :
  lockstep ks s ->
  lockstep (List.map fst (StdMap.assign t tt (shape ks))) (set t s args).
Proof.
  induction s as [T head | T Ts head tail IH]; simpl.
  - intros [Ho E]. split; [now apply ordered_assign |].
    apply assign_keys. now rewrite shape_keys.
  - intros [[Ho E] Hl]. split; [split |].
    + now apply ordered_assign.
    + apply assign_keys. now rewrite shape_keys.
    + now apply IH.
Qed.

Lemma lockstep_erase {Ts} (s : Splines Ts) ks t :
  lockstep ks s ->
  lockstep (List.map fst (StdMap.erase_key t (shape ks))) (erase t s).
Proof.
  induction s as [T head | T Ts head tail IH]; simpl.
  - intros [Ho E]. split; [now apply ordered_erase_key |].
    apply erase_keys. now rewrite shape_keys.
  - intros [[Ho E] Hl]. split; [split |].
    + now apply ordered_erase_key.
    + apply erase_keys. now rewrite shape_keys.
    + now apply IH.
Qed.

Lemma lockstep_crop {Ts} (s : Splines Ts) ks t :
  lockstep ks s ->
  lockstep (List.map fst (Spline.crop t (shape ks))) (crop t s).
Proof.
  induction s as [T head | T Ts head tail IH]; simpl.
  - intros [Ho E]. split; [now apply ordered_crop |].
    apply crop_keys. now rewrite shape_keys.
  - intros [[Ho E] Hl]. split; [split |].
    + now apply ordered_crop.
    + apply crop_keys. now rewrite shape_keys.
    + now apply IH.
Qed.

Lemma lockstep_clear {Ts} (s : Splines Ts) : lockstep [] (clear s).
Proof.
  induction s as [T head | T Ts head tail IH]; simpl; auto.
Qed.

Lemma lockstep_step {Ts} (s : Splines Ts) ks (c : call Ts) :
  lockstep ks s -> exists ks', lockstep ks' (step s c).
Proof.
  intros Hl. destruct c as [t args | t | | t]; simpl; eexists.
  - exact (lockstep_set s ks t args Hl).
  - exact (lockstep_erase s ks t Hl).
  - apply lockstep_clear.
  - exact (lockstep_crop s ks t Hl).
Qed.

Lemma lockstep_run {Ts} (cs : list (call Ts)) (s : Splines Ts) ks :
  lockstep ks s -> exists ks', lockstep ks' (run cs s).
Proof.
  revert s ks. induction cs as [| c cs IH]; intros s ks Hl; simpl.
  - now exists ks.
  - destruct (lockstep_step s ks c Hl) as [ks' Hl']. now apply (IH _ ks').
Qed.

Lemma lockstep_keys {Ts} (s : Splines Ts) ks :
  lockstep ks s ->
  keys s = ks /\ Forall (fun k => k = ks) (channel_keys s).
Proof.
  induction s as [T head | T Ts head tail IH]; simpl.
  - intros [Ho E]. rewrite (keys_ordered head Ho), E. auto.
  - intros [[Ho E] Hl]. destruct (IH Hl) as [Ek Hall].
    rewrite Ek, (keys_ordered head Ho), E. split.
    + rewrite <- E. apply insert_range_present; [exact Ho | apply incl_refl].
    + constructor; [reflexivity | exact Hall].
Qed.

(** An evaluation policy that is exact at the start of a bracket returns
    the value just stored by [set] at the same time. *)
Lemma eval_set_exact {T : Type} (no_value : T) (d : float * T)
    (between : float * T -> float * T -> float -> T)
    (m : StdMap.map T) (t : float) (v : T) :
  (forall a b, fst a < fst b -> between a b (fst a) = snd a) ->
  StdMap.ordered m ->
  Knots.eval no_value d between (Spline.set t v m) t = v.
Proof.
  intros Hstart Ho. unfold Spline.set.
  apply (eval_at_knot no_value d between _ (t, v) Hstart).
  - now apply ordered_assign.
  - apply find_In; [now apply ordered_assign | apply find_assign_same].
Qed.

(** C5.  [Splines::at(t)] returns the tuple whose [i]-th component is
    channel [i]'s own [at(t)], computed from that channel's knots alone.
    Hence [set(t, v0, ..., vN-1)] followed by [at(t)] returns
    [(v0, ..., vN-1)] whenever every channel returns its freshly set knot
    value at [t]; a rotation channel (with [slerp] exact at parameter 0)
    next to a boolean channel does. *)
Theorem at_tuple :
  (forall Ts (s : Splines Ts) (t : float) (i : nat),
      component Ts (at_ s t) i = channel_at s t i)
  /\ (forall Ts (s : Splines Ts) (t : float) (args : tuple Ts),
        exact_at_knot s t args -> at_ (set t s args) t = args)
  /\ (forall (Quat : Type) (Quat_ctor : DefaultConstructible Quat)
         (slerp : Quat -> Quat -> Float32.value -> Quat)
         (rot : StdMap.map Quat) (vis : StdMap.map bool)
         (t : float) (A : Quat) (B : bool),
        (forall q0 q1, slerp q0 q1 (Float32.Num 0) = q0) ->
        StdMap.ordered rot -> StdMap.ordered vis ->
        let s : Splines [quat_channel Quat slerp; bool_channel] :=
          @Chain (quat_channel Quat slerp) [bool_channel] rot
            (@Single bool_channel vis) in
        at_ (set t s (A, (B, tt))) t = (A, (B, tt))).
Proof.
  split; [| split].
  - intros Ts s t. induction s as [T head | T Ts head tail IH];
      intros [| i]; simpl; auto.
  - intros Ts s t. induction s as [T head | T Ts head tail IH]; simpl.
    + intros [v []] H. simpl in *. now rewrite H.
    + intros [v args] [H Htail]. simpl in *. now rewrite H, IH.
  - intros Quat Quat_ctor slerp rot vis t A B Hslerp Hrot Hvis. simpl.
    rewrite quat_at_eval, bool_at_eval.
    rewrite !eval_set_exact; auto using slerp_start.
Qed.

Lemma at_tuple_witness :
  let s : Splines [quat_channel Planar.Rot Planar.slerp; bool_channel] :=
    create _ _ in
  let args : tuple [quat_channel Planar.Rot Planar.slerp; bool_channel] :=
    (Time.of_Z 90, (true, tt)) in
  exact_at_knot s (Time.of_Z 2) args
  /\ at_ (set (Time.of_Z 2) s args) (Time.of_Z 2) = args.
Proof.
  intros s args.
  assert (H : exact_at_knot s (Time.of_Z 2) args) by (split; reflexivity).
  split; [exact H |].
  exact (proj1 (proj2 at_tuple) _ s (Time.of_Z 2) args H).
Defined.

(** C6.  After any sequence of [set], [erase], [clear] and [crop] calls
    on a freshly created multi-channel spline, every channel holds the
    same key set, and that set is what [keys()] returns; no knot time is
    present in one channel and missing from another. *)
Theorem channels_share_keys (T : Channel) (Ts : list Channel)
    (cs : list (call (T :: Ts))) :
  let s := run cs (create T Ts) in
  Forall (fun ks => ks = keys s) (channel_keys s)
  /\ (forall ks1 ks2 t,
        In ks1 (channel_keys s) -> In ks2 (channel_keys s) ->
        In t ks1 -> In t ks2).
Proof.
  intros s.
  destruct (lockstep_run cs (create T Ts) [] (lockstep_create T Ts))
    as [ks Hl].
  destruct (lockstep_keys _ ks Hl) as [Ek Hall]. fold s in Ek, Hall.
  rewrite Ek. split; [exact Hall |].
  rewrite Forall_forall in Hall.
  intros ks1 ks2 t H1 H2. rewrite (Hall _ H1), (Hall _ H2). tauto.
Qed.

End SplinesSpec.


(** ** Further facts about the ordered map *)

Module MapLaws.
Import TimeFacts MapFacts.

Section Laws.
Context {T : Type}.
Implicit Types (m : StdMap.map T) (t k : float) (v : T) (e : (float * T)%type).

Lemma option_ext (o1 o2 : option T) :
  (forall v, o1 = Some v <-> o2 = Some v) -> o1 = o2.
Proof.
  intros H. destruct o1 as [v1 |], o2 as [v2 |]; auto.
  - symmetry. now apply H.
  - symmetry. now apply H.
  - now apply H.
Qed.

Lemma find_head k v m : StdMap.find k ((k, v) :: m) = Some v.
Proof. simpl. now rewrite compare_refl. Qed.

Lemma find_erase_same t m :
  StdMap.ordered m -> StdMap.find t (StdMap.erase_key t m) = None.
Proof.
  intros Ho.
  destruct (StdMap.find t (StdMap.erase_key t m)) as [v |] eqn:E; [| reflexivity].
  exfalso. apply find_In in E; [| now apply ordered_erase_key].
  apply In_erase_key in E; [| exact Ho]. now destruct E as [_ []].
Qed.

Lemma find_erase_other t k m :
  StdMap.ordered m -> k <> t ->
  StdMap.find k (StdMap.erase_key t m) = StdMap.find k m.
Proof.
  intros Ho Hne. apply option_ext. intros v.
  rewrite (find_In _ k v (ordered_erase_key t m Ho)), (find_In m k v Ho).
  rewrite (In_erase_key t m (k, v) Ho). simpl. tauto.
Qed.

Lemma find_crop t k m :
  StdMap.ordered m ->
  StdMap.find k (Spline.crop t m)
  = if Time.ltb k t then StdMap.find k m else None.
Proof.
  intros Ho. apply option_ext. intros v.
  rewrite (find_In _ k v (ordered_crop t m Ho)).
  rewrite crop_filter, filter_In by exact Ho. simpl.
  destruct (Time.ltb k t).
  - rewrite (find_In m k v Ho). tauto.
  - split; [intros [_ [=]] | discriminate].
Qed.

(** Two well-formed maps that answer every lookup alike are equal. *)
Lemma ordered_ext m1 m2 :
  StdMap.ordered m1 -> StdMap.ordered m2 ->
  (forall k, StdMap.find k m1 = StdMap.find k m2) -> m1 = m2.
Proof.
  revert m2. induction m1 as [| [k1 v1] m1 IH]; intros [| [k2 v2] m2] Ho1 Ho2 H.
  - reflexivity.
  - specialize (H k2). rewrite find_head in H. discriminate H.
  - specialize (H k1). rewrite find_head in H. discriminate H.
  - destruct Ho1 as [Ha1 Ho1], Ho2 as [Ha2 Ho2]. simpl in Ha1, Ha2.
    assert (Ek : k1 = k2).
    { destruct (compare_spec k1 k2) as [E | L | G]; [exact E | |].
      - specialize (H k1). rewrite find_head, find_before in H by exact L.
        discriminate H.
      - specialize (H k2). rewrite find_head, find_before in H by exact G.
        discriminate H. }
    subst k2.
    assert (Ev : v1 = v2).
    { specialize (H k1). rewrite !find_head in H. congruence. }
    subst v2. f_equal. apply IH; auto.
    intros k. destruct (compare_spec k k1) as [E | L | G].
    + subst k. now rewrite !find_above.
    + rewrite !find_above; auto;
        eapply above_weaken; try eassumption; order.
    + specialize (H k). simpl in H. now rewrite (compare_gt _ _ G) in H.
Qed.

Lemma In_assign t v m e :
  StdMap.ordered m ->
  (In e (StdMap.assign t v m) <-> e = (t, v) \/ (In e m /\ fst e <> t)).
Proof.
  intros Ho. destruct e as [k w].
  rewrite <- (find_In _ k w (ordered_assign t v m Ho)).
  rewrite <- (find_In m k w Ho). simpl.
  destruct (Qc_eq_dec k t) as [-> | Hne].
  - rewrite find_assign_same. split.
    + intros [= ->]. now left.
    + intros [[= ->] | [_ []]]; reflexivity.
  - rewrite find_assign_other by exact Hne. split.
    + intros H. right. now split.
    + intros [[= -> _] | [H _]]; [now elim Hne | exact H].
Qed.

(** The keys after an assignment are the old keys with the new one
    inserted in place. *)
Lemma assign_keys_insert t v m :
  List.map fst (StdMap.assign t v m) = StdSet.insert t (List.map fst m).
Proof.
  induction m as [| [k0 v0] m IH]; simpl; [reflexivity |].
  destruct (t ?= k0); simpl; congruence.
Qed.

Lemma erase_keys_filter t m :
  StdMap.ordered m ->
  List.map fst (StdMap.erase_key t m)
  = filter (fun k => negb (Time.eqb k t)) (List.map fst m).
Proof.
  induction m as [| [k0 v0] m IH]; simpl; [reflexivity |].
  intros [Ha Ho]. simpl in Ha.
  assert (Htail : forall k, t <= k -> StdMap.above k m ->
            filter (fun k => negb (Time.eqb k t)) (List.map fst m) = List.map fst m).
  { intros k Hk Hab. apply forallb_filter_id, forallb_forall.
    intros x Hx. apply in_map_iff in Hx. destruct Hx as (e & <- & He).
    apply (above_In _ _ _ Hab) in He.
    apply negb_true_iff, eqb_neq. order. }
  destruct (compare_spec t k0) as [E | L | G].
  - subst k0. assert (Hb : Time.eqb t t = true) by now apply eqb_eq.
    rewrite Hb. simpl. symmetry. apply (Htail t); [apply Qcle_refl | exact Ha].
  - assert (Hb : Time.eqb k0 t = false) by (apply eqb_neq; order).
    rewrite Hb. simpl. f_equal. symmetry.
    apply (Htail k0); [order | exact Ha].
  - assert (Hb : Time.eqb k0 t = false) by (apply eqb_neq; order).
    rewrite Hb. simpl. f_equal. now apply IH.
Qed.

Lemma ordered_sorted m :
  StdMap.ordered m -> StronglySorted Qclt (List.map fst m).
Proof.
  induction m as [| e m IH]; simpl; [constructor |].
  intros [Ha Ho]. constructor; [now apply IH |].
  apply Forall_map. exact Ha.
Qed.

(** The invariant only looks at the keys. *)
Lemma ordered_same_keys {B : Type} m (mb : StdMap.map B) :
  List.map fst m = List.map fst mb -> StdMap.ordered m -> StdMap.ordered mb.
Proof.
  revert mb. induction m as [| [k v] m IH]; intros [| [kb vb] mb]; simpl;
    try discriminate; auto.
  intros [= <- E] [Ha Ho]. split; [| now apply (IH mb)].
  unfold StdMap.above in *. rewrite Forall_forall in *.
  intros x Hx. assert (Hk : In (fst x) (List.map fst m))
    by (rewrite E; now apply in_map).
  apply in_map_iff in Hk. destruct Hk as (y & Ey & Hy).
  rewrite <- Ey. now apply Ha.
Qed.

End Laws.

End MapLaws.


(** ** Laws of the single-channel mutators and queries *)

Module SplineLaws.
Import TimeFacts MapFacts MapLaws PolicyFacts.

Section Generic.
Context {T : Type}.
Implicit Types (m : StdMap.map T) (t k a b : float) (v : T).

Lemma has_of_find t m :
  Spline.has t m = match StdMap.find t m with Some _ => true | None => false end.
Proof.
  unfold Spline.has. rewrite count_find. now destruct (StdMap.find t m).
Qed.

Lemma has_set_other t k v m :
  k <> t -> Spline.has k (Spline.set t v m) = Spline.has k m.
Proof.
  intros Hne. rewrite !has_of_find. unfold Spline.set.
  now rewrite find_assign_other.
Qed.

(** X1.  [set] followed by a lookup: the knot at [t] exists and carries the
    value just written, and presence and value at every other time are as
    before. *)
Theorem set_lookup m t v :
  Spline.has t (Spline.set t v m) = true
  /\ StdMap.find t (Spline.set t v m) = Some v
  /\ (forall k, k <> t ->
        StdMap.find k (Spline.set t v m) = StdMap.find k m
        /\ Spline.has k (Spline.set t v m) = Spline.has k m).
Proof.
  unfold Spline.set. split; [| split].
  - rewrite has_of_find. now rewrite find_assign_same.
  - apply find_assign_same.
  - intros k Hne. split; [now apply find_assign_other |].
    now apply has_set_other.
Qed.

(** X2.  [set] adds a knot only when none is stored at that time, and
    [erase] removes one only when one is stored there. *)
Theorem set_erase_size m t v :
  length (Spline.set t v m)
    = (if Spline.has t m then length m else S (length m))
  /\ length (Spline.erase t m)
    = (if Spline.has t m then Nat.pred (length m) else length m).
Proof.
  unfold Spline.set, Spline.erase, Spline.has. split.
  - induction m as [| [k0 v0] m IH]; simpl; [reflexivity |].
    destruct (t ?= k0); simpl; try reflexivity.
    rewrite IH. now destruct (Nat.eqb (StdMap.count t m) 0).
  - induction m as [| [k0 v0] m IH]; simpl; [reflexivity |].
    destruct (t ?= k0); simpl; try reflexivity.
    rewrite IH. destruct m as [| e m]; [reflexivity |].
    now destruct (Nat.eqb (StdMap.count t (e :: m)) 0).
Qed.

(** X3.  [keys] lists the knot times in strictly increasing order, one per
    knot, and a time is listed exactly when [has] answers true for it. *)
Theorem keys_spec m :
  StdMap.ordered m ->
  StronglySorted Qclt (Spline.keys m)
  /\ length (Spline.keys m) = length m
  /\ (forall k, In k (Spline.keys m) <-> Spline.has k m = true).
Proof.
  intros Ho. rewrite (keys_ordered m Ho). split; [| split].
  - now apply ordered_sorted.
  - apply length_map.
  - intros k. symmetry. now apply has_In.
Qed.

(** X4.  How the key set changes: [set] inserts the time, [erase] removes
    exactly that time, [clear] leaves no key. *)
Theorem keys_after m t v :
  StdMap.ordered m ->
  Spline.keys (Spline.set t v m) = StdSet.insert t (Spline.keys m)
  /\ Spline.keys (Spline.erase t m)
     = filter (fun k => negb (Time.eqb k t)) (Spline.keys m)
  /\ Spline.keys (Spline.clear m) = [].
Proof.
  intros Ho. unfold Spline.set, Spline.erase.
  rewrite (keys_ordered m Ho).
  rewrite (keys_ordered _ (ordered_assign t v m Ho)).
  rewrite (keys_ordered _ (ordered_erase_key t m Ho)).
  split; [apply assign_keys_insert |]. split; [now apply erase_keys_filter |].
  reflexivity.
Qed.

Lemma any_has m : Spline.any m = true <-> exists t, Spline.has t m = true.
Proof.
  destruct m as [| [k0 v0] m]; simpl; split.
  - discriminate.
  - intros [t Ht]. discriminate Ht.
  - intros _. exists k0. rewrite has_of_find. now rewrite find_head.
  - reflexivity.
Qed.

(** X5.  [any] answers true exactly when [has] answers true for some time;
    it is true after every [set] and false after [clear]. *)
Theorem any_spec m :
  (Spline.any m = true <-> exists t, Spline.has t m = true)
  /\ (forall t v, Spline.any (Spline.set t v m) = true)
  /\ Spline.any (Spline.clear m) = false.
Proof.
  split; [| split].
  - apply any_has.
  - intros t v. unfold Spline.set.
    destruct m as [| [k0 v0] m]; simpl; [reflexivity |].
    now destruct (t ?= k0).
  - reflexivity.
Qed.

(** X6.  [erase] undoes a [set] at a time that held no knot; a [set]
    makes an earlier [erase] at the same time irrelevant; erasing twice
    is erasing once. *)
Theorem set_erase_round_trip m t v :
  StdMap.ordered m ->
  (Spline.has t m = false -> Spline.erase t (Spline.set t v m) = m)
  /\ Spline.set t v (Spline.erase t m) = Spline.set t v m
  /\ Spline.erase t (Spline.erase t m) = Spline.erase t m.
Proof.
  intros Ho. unfold Spline.set, Spline.erase.
  assert (Hoa := ordered_assign t v m Ho).
  assert (Hoe := ordered_erase_key t m Ho).
  split; [| split].
  - intros Hno. apply has_false in Hno.
    apply ordered_ext; auto using ordered_erase_key.
    intros k. destruct (Qc_eq_dec k t) as [-> | Hne].
    + now rewrite find_erase_same, Hno.
    + now rewrite find_erase_other, find_assign_other.
  - apply ordered_ext; auto using ordered_assign.
    intros k. destruct (Qc_eq_dec k t) as [-> | Hne].
    + now rewrite !find_assign_same.
    + now rewrite !find_assign_other, find_erase_other.
  - apply erase_key_absent. now apply find_erase_same.
Qed.

(** X7.  Cropping twice is cropping at the earlier of the two times: crops
    commute, repeat without effect, and an earlier crop absorbs a later
    one.  After [crop(a)] a time has a knot exactly when it had one before
    and lies before [a]. *)
Theorem crop_compose m a b :
  StdMap.ordered m ->
  Spline.crop a (Spline.crop b m) = Spline.crop b (Spline.crop a m)
  /\ Spline.crop a (Spline.crop a m) = Spline.crop a m
  /\ (a <= b -> Spline.crop a (Spline.crop b m) = Spline.crop a m)
  /\ (forall k, Spline.has k (Spline.crop a m)
               = Spline.has k m && Time.ltb k a).
Proof.
  intros Ho.
  assert (Hext : forall x y, StdMap.find x (Spline.crop a (Spline.crop y m))
            = if Time.ltb x a && Time.ltb x y then StdMap.find x m else None).
  { intros x y. rewrite find_crop by now apply ordered_crop.
    rewrite find_crop by exact Ho.
    now destruct (Time.ltb x a), (Time.ltb x y). }
  assert (Hext' : forall x, StdMap.find x (Spline.crop b (Spline.crop a m))
            = if Time.ltb x a && Time.ltb x b then StdMap.find x m else None).
  { intros x. rewrite find_crop by now apply ordered_crop.
    rewrite find_crop by exact Ho.
    now destruct (Time.ltb x a), (Time.ltb x b). }
  split; [| split; [| split]].
  - apply ordered_ext; auto using ordered_crop.
    intros k. now rewrite Hext, Hext'.
  - apply ordered_ext; auto using ordered_crop.
    intros k. rewrite Hext, find_crop by exact Ho.
    now destruct (Time.ltb k a).
  - intros Hab. apply ordered_ext; auto using ordered_crop.
    intros k. rewrite Hext, find_crop by exact Ho.
    destruct (Time.ltb k a) eqn:Ea; [| reflexivity].
    apply ltb_lt in Ea. assert (Eb : Time.ltb k b = true) by (apply ltb_lt; order).
    now rewrite Eb.
  - intros k. rewrite !has_of_find, find_crop by exact Ho.
    destruct (Time.ltb k a), (StdMap.find k m); reflexivity.
Qed.

(** X8.  Mutations at different times do not interfere: two [set]s, two
    [erase]s, or a [set] and an [erase] can be swapped. *)
Theorem mutators_commute m a b (va vb : T) :
  StdMap.ordered m ->
  (a <> b ->
     Spline.set a va (Spline.set b vb m) = Spline.set b vb (Spline.set a va m))
  /\ Spline.erase a (Spline.erase b m) = Spline.erase b (Spline.erase a m)
  /\ (a <> b ->
       Spline.erase a (Spline.set b vb m) = Spline.set b vb (Spline.erase a m)).
Proof.
  intros Ho. unfold Spline.set, Spline.erase. split; [| split].
  - intros Hab. apply ordered_ext; auto using ordered_assign.
    intros k. destruct (Qc_eq_dec k a) as [-> | Ha].
    + rewrite find_assign_same, find_assign_other by exact Hab.
      now rewrite find_assign_same.
    + rewrite find_assign_other by exact Ha.
      destruct (Qc_eq_dec k b) as [-> | Hb].
      * now rewrite !find_assign_same.
      * now rewrite !find_assign_other.
  - apply ordered_ext; auto using ordered_erase_key.
    intros k. destruct (Qc_eq_dec k a) as [-> | Ha].
    + rewrite find_erase_same by now apply ordered_erase_key.
      destruct (Qc_eq_dec a b) as [-> | Hab].
      * now rewrite find_erase_same by now apply ordered_erase_key.
      * rewrite find_erase_other by (auto using ordered_erase_key).
        now rewrite find_erase_same.
    + rewrite find_erase_other by (auto using ordered_erase_key).
      destruct (Qc_eq_dec k b) as [-> | Hb].
      * rewrite find_erase_same by exact Ho.
        now rewrite find_erase_same by now apply ordered_erase_key.
      * now rewrite !find_erase_other by (auto using ordered_erase_key).
  - intros Hab.
    apply ordered_ext; auto using ordered_assign, ordered_erase_key.
    intros k. destruct (Qc_eq_dec k a) as [-> | Ha].
    + rewrite find_erase_same by now apply ordered_assign.
      rewrite find_assign_other by exact Hab.
      now rewrite find_erase_same.
    + rewrite find_erase_other by (auto using ordered_assign).
      destruct (Qc_eq_dec k b) as [-> | Hb].
      * now rewrite !find_assign_same.
      * rewrite !find_assign_other by exact Hb.
        now rewrite find_erase_other.
Qed.

End Generic.

Lemma knots_at_absent {T : Type} (t : float) (m : StdMap.map T) :
  StdMap.ordered m -> StdMap.find t m = None -> Knots.knots_at t m = [].
Proof.
  intros Ho Hno. destruct (Knots.knots_at t m) as [| [k v] l] eqn:E;
    [reflexivity |].
  exfalso. assert (Hin : In (k, v) (Knots.knots_at t m)) by (rewrite E; now left).
  unfold Knots.knots_at in Hin. apply filter_In in Hin.
  destruct Hin as [Hin Hk]. simpl in Hk. apply eqb_eq in Hk. subst k.
  apply (find_In m t v Ho) in Hin. congruence.
Qed.

(** X9.  Whatever sequence of [set], [erase], [clear] and [crop] calls an
    initially empty spline goes through, its knots stay in strictly
    increasing time order and no time ever holds more than one knot. *)
Theorem history_keeps_order {T : Type} (cs : list (Lifetime.call T)) :
  let m := Lifetime.run cs [] in
  StdMap.ordered m
  /\ StronglySorted Qclt (Spline.keys m)
  /\ (forall t, (length (Knots.knots_at t m) <= 1)%nat).
Proof.
  intros m.
  assert (Ho : StdMap.ordered m).
  { unfold m, Lifetime.run.
    assert (Hgen : forall (start : StdMap.map T),
               StdMap.ordered start -> StdMap.ordered (fold_left Lifetime.step cs start)).
    { induction cs as [| c cs IH]; intros start Hs; simpl; [exact Hs |].
      apply IH. destruct c as [time value | time | | t]; simpl.
      - now apply ordered_assign.
      - now apply ordered_erase_key.
      - exact I.
      - now apply ordered_crop. }
    apply Hgen. exact I. }
  split; [exact Ho |]. split.
  - rewrite (keys_ordered m Ho). now apply ordered_sorted.
  - intros t. destruct (StdMap.find t m) as [v |] eqn:E.
    + rewrite (knots_at_find t v m Ho E). simpl. lia.
    + rewrite (knots_at_absent t m Ho E). simpl. lia.
Qed.

Local Abbreviation sample := Sample.knots.

Lemma sample_ordered : StdMap.ordered sample.
Proof. ordered_by_computation. Defined.

Lemma set_lookup_witness :
  Time.of_Z 1 <> Time.of_Z 2
  /\ StdMap.find (Time.of_Z 1) (Spline.set (Time.of_Z 2) true sample)
     = StdMap.find (Time.of_Z 1) sample.
Proof.
  assert (Hne : Time.of_Z 1 <> Time.of_Z 2) by (apply eqb_neq; reflexivity).
  split; [exact Hne |].
  exact (proj1 (proj2 (proj2 (set_lookup sample (Time.of_Z 2) true)) _ Hne)).
Defined.

Lemma keys_spec_witness :
  StdMap.ordered sample
  /\ length (Spline.keys sample) = length sample.
Proof.
  split; [exact sample_ordered |].
  exact (proj1 (proj2 (keys_spec sample sample_ordered))).
Defined.

Lemma keys_after_witness :
  StdMap.ordered sample
  /\ Spline.keys (Spline.set (Time.of_Z 5) true sample)
     = StdSet.insert (Time.of_Z 5) (Spline.keys sample).
Proof.
  split; [exact sample_ordered |].
  exact (proj1 (keys_after sample (Time.of_Z 5) true sample_ordered)).
Defined.

Lemma set_erase_round_trip_witness :
  StdMap.ordered sample
  /\ Spline.has (Time.of_Z 5) sample = false
  /\ Spline.erase (Time.of_Z 5) (Spline.set (Time.of_Z 5) true sample) = sample.
Proof.
  assert (Hno : Spline.has (Time.of_Z 5) sample = false) by reflexivity.
  split; [exact sample_ordered |]. split; [exact Hno |].
  exact (proj1 (set_erase_round_trip sample (Time.of_Z 5) true sample_ordered) Hno).
Defined.

Lemma crop_compose_witness :
  StdMap.ordered sample
  /\ Time.of_Z 2 <= Time.of_Z 3
  /\ Spline.crop (Time.of_Z 2) (Spline.crop (Time.of_Z 3) sample)
     = Spline.crop (Time.of_Z 2) sample.
Proof.
  assert (Hle : Time.of_Z 2 <= Time.of_Z 3) by (vm_compute; discriminate).
  split; [exact sample_ordered |]. split; [exact Hle |].
  exact (proj1 (proj2 (proj2
           (crop_compose sample (Time.of_Z 2) (Time.of_Z 3) sample_ordered))) Hle).
Defined.

Lemma mutators_commute_witness :
  StdMap.ordered sample
  /\ Time.of_Z 2 <> Time.of_Z 5
  /\ Spline.set (Time.of_Z 2) true (Spline.set (Time.of_Z 5) false sample)
     = Spline.set (Time.of_Z 5) false (Spline.set (Time.of_Z 2) true sample).
Proof.
  assert (Hne : Time.of_Z 2 <> Time.of_Z 5) by (apply eqb_neq; reflexivity).
  split; [exact sample_ordered |]. split; [exact Hne |].
  exact (proj1 (mutators_commute sample (Time.of_Z 2) (Time.of_Z 5) true false
                  sample_ordered) Hne).
Defined.

End SplineLaws.


(** ** Laws of evaluation *)

Module EvalLaws.
Import TimeFacts MapFacts MapLaws EvalFacts PolicyFacts.

Section Generic.
Context {T : Type}.
Implicit Types (m : StdMap.map T) (t : float) (e : (float * T)%type).

(** Among the knots at or before [t], when there is one, one is latest. *)
Lemma latest_exists m t :
  StdMap.ordered m -> (exists e, In e m /\ fst e <= t) ->
  exists e, In e m /\ fst e <= t
    /\ forall e', In e' m -> fst e' <= t -> fst e' <= fst e.
Proof.
  induction m as [| x m IH]; intros Ho [e0 [Hin0 Hle0]]; [destruct Hin0 |].
  destruct Ho as [Ha Ho].
  assert (Hx : fst x <= t).
  { destruct Hin0 as [<- | Hin0]; [exact Hle0 |].
    apply (above_In _ _ _ Ha) in Hin0. order. }
  destruct m as [| y m].
  - exists x. split; [now left |]. split; [exact Hx |].
    intros e' [<- | []] _. apply Qcle_refl.
  - destruct (Qclt_le_dec t (fst y)) as [Hty | Hyt].
    + exists x. split; [now left |]. split; [exact Hx |].
      intros e' [<- | Hin'] Hle'; [apply Qcle_refl |].
      exfalso. destruct Ho as [Hay _].
      destruct Hin' as [<- | Hin']; [order |].
      apply (above_In _ _ _ Hay) in Hin'. order.
    + destruct IH as (e & Hin & Hle & Hmax); [exact Ho | now exists y; split; [left |] |].
      exists e. split; [now right |]. split; [exact Hle |].
      intros e' [<- | Hin'] Hle'; [| now apply Hmax].
      apply (above_In _ _ _ Ha) in Hin. order.
Qed.

(** A policy that answers with the earlier knot of a bracket answers with
    the latest knot at or before the query time. *)
Lemma eval_latest (no_value : T) (d : float * T) m t e :
  StdMap.ordered m -> In e m -> fst e <= t ->
  (forall e', In e' m -> fst e' <= t -> fst e' <= fst e) ->
  Knots.eval no_value d Knots.step_between m t = snd e.
Proof.
  intros Ho Hin Hle Hmax.
  destruct (in_split _ _ Hin) as (l1 & l2 & ->).
  assert (Ho' := Ho). apply ordered_app in Ho'. destruct Ho' as (_ & [Ha _] & Hlt).
  destruct l2 as [| b l2].
  - apply eval_hold_last; [exact Ho | | exact Hle].
    split; [exact Hin |]. intros x Hx.
    apply in_app_or in Hx. destruct Hx as [Hx | [<- | []]].
    + specialize (Hlt x e Hx (or_introl eq_refl)). order.
    + apply Qcle_refl.
  - assert (Heb : fst e < fst b) by (apply (above_In _ _ _ Ha); now left).
    assert (Htb : t < fst b).
    { destruct (Qclt_le_dec t (fst b)) as [C | C]; [exact C |].
      exfalso.
      assert (Hb : fst b <= fst e).
      { apply Hmax; [| exact C]. apply in_or_app. right. simpl. auto. }
      order. }
    now rewrite eval_bracket.
Qed.

End Generic.

Lemma bool_latest (m : StdMap.map bool) (t : float) (e : float * bool) :
  StdMap.ordered m -> In e m -> fst e <= t ->
  (forall e', In e' m -> fst e' <= t -> fst e' <= fst e) ->
  SplineBool.at_ m t = snd e.
Proof.
  intros Ho Hin Hle Hmax.
  exact (eval_latest false SplineBool.past_the_end m t e Ho Hin Hle Hmax).
Qed.

(** X10.  The step policy as a whole: a boolean spline evaluates to the
    value of the latest knot whose time is at or before the query time. *)
Theorem step_latest_knot (m : StdMap.map bool) (t : float) (e : float * bool) :
  StdMap.ordered m -> In e m -> fst e <= t ->
  (forall e', In e' m -> fst e' <= t -> fst e' <= fst e) ->
  SplineBool.at_ m t = snd e.
Proof.
  intros Ho Hin Hle Hmax. rewrite bool_at_eval. now apply eval_latest.
Qed.

(** X11.  A non-empty boolean spline always evaluates to the value of one
    of its knots; the [false] of the empty spline is never made up. *)
Theorem step_returns_stored_value (m : StdMap.map bool) (t : float) :
  StdMap.ordered m -> m <> [] ->
  exists e, In e m /\ SplineBool.at_ m t = snd e.
Proof.
  intros Ho Hne. destruct m as [| x m]; [now elim Hne |].
  rewrite bool_at_eval.
  destruct (Qclt_le_dec t (fst x)) as [Hlt | Hle].
  - exists x. split; [now left | now apply eval_before_first].
  - destruct (latest_exists (x :: m) t Ho) as (e & Hin & Het & Hmax).
    + exists x. split; [now left | exact Hle].
    + exists e. split; [exact Hin | now apply eval_latest].
Qed.

(** X12.  Changes after the query time do not reach back: when some knot
    lies at or before [t], a [set], [erase] or [crop] at a time later than
    [t] leaves the boolean spline's value at [t] as it was. *)
Theorem step_ignores_later_changes (m : StdMap.map bool) (t t' : float) (v : bool) :
  StdMap.ordered m -> (exists e, In e m /\ fst e <= t) -> t < t' ->
  SplineBool.at_ (SplineBool.set t' v m) t = SplineBool.at_ m t
  /\ SplineBool.at_ (SplineBool.erase t' m) t = SplineBool.at_ m t
  /\ SplineBool.at_ (SplineBool.crop t' m) t = SplineBool.at_ m t.
Proof.
  intros Ho Hex Hlt.
  destruct (latest_exists m t Ho Hex) as (e & Hin & Hle & Hmax).
  rewrite (bool_latest m t e Ho Hin Hle Hmax).
  assert (Hne : fst e <> t') by order.
  unfold SplineBool.set, SplineBool.erase, SplineBool.crop,
    Spline.set, Spline.erase.
  split; [| split]; apply bool_latest; try exact Hle.
  - now apply ordered_assign.
  - apply In_assign; auto.
  - intros e' He' Hle'. apply In_assign in He'; [| exact Ho].
    destruct He' as [-> | [He' _]]; [simpl in Hle'; exfalso; order |].
    now apply Hmax.
  - now apply ordered_erase_key.
  - apply In_erase_key; auto.
  - intros e' He' Hle'. apply In_erase_key in He'; [| exact Ho].
    apply Hmax; tauto.
  - now apply ordered_crop.
  - rewrite crop_filter, filter_In by exact Ho. split; [exact Hin |].
    apply ltb_lt. order.
  - intros e' He' Hle'. rewrite crop_filter, filter_In in He' by exact Ho.
    apply Hmax; tauto.
Qed.

(** X13.  Outside the knot range a rotation spline does not interpolate:
    strictly before the smallest knot time it returns the smallest knot's
    value and at or after the largest knot time the largest knot's value,
    whatever [slerp] computes. *)
Theorem quat_outside_range {Quat : Type} {Quat_ctor : DefaultConstructible Quat}
    (slerp : Quat -> Quat -> Float32.value -> Quat)
    (m : StdMap.map Quat) (e : float * Quat) (t : float) :
  StdMap.ordered m ->
  (Knots.smallest m e -> t < fst e -> SplineQuat.at_ slerp m t = snd e)
  /\ (Knots.largest m e -> fst e <= t -> SplineQuat.at_ slerp m t = snd e).
Proof.
  intros Ho. split.
  - intros Hs Hlt. rewrite quat_at_eval.
    destruct (smallest_first m e Ho Hs) as [m' ->].
    now apply eval_before_first.
  - intros Hl Hle. rewrite quat_at_eval. now apply eval_hold_last.
Qed.

Lemma largest_exists {T : Type} (m : StdMap.map T) :
  StdMap.ordered m -> m <> [] -> exists e, Knots.largest m e.
Proof.
  intros Ho Hne. destruct (exists_last Hne) as (l & e & ->).
  exists e. split; [apply in_or_app; right; now left |].
  intros x Hx. apply ordered_app in Ho. destruct Ho as (_ & _ & Hlt).
  apply in_app_or in Hx. destruct Hx as [Hx | [<- | []]].
  - specialize (Hlt x e Hx (or_introl eq_refl)). order.
  - apply Qcle_refl.
Qed.

Lemma eval_after_crop {T : Type} (no_value : T) (d : float * T)
    (between : float * T -> float * T -> float -> T)
    (m : StdMap.map T) (c t : float) :
  StdMap.ordered m -> c <= t ->
  Knots.eval no_value d between (Spline.crop c m) t
  = Knots.eval no_value d between (Spline.crop c m) c.
Proof.
  intros Ho Hct. assert (Hoc := ordered_crop c m Ho).
  destruct (Spline.crop c m) as [| x l] eqn:E; [reflexivity |].
  destruct (largest_exists (x :: l) Hoc) as [e Hl]; [discriminate |].
  assert (Hec : fst e < c).
  { destruct Hl as [Hin _]. rewrite <- E in Hin.
    rewrite crop_filter, filter_In in Hin by exact Ho.
    now apply ltb_lt. }
  rewrite (eval_hold_last no_value d between (x :: l) e t Hoc Hl) by order.
  rewrite (eval_hold_last no_value d between (x :: l) e c Hoc Hl) by order.
  reflexivity.
Qed.

(** X17.  A value written by [set] is what [at] returns at that time:
    always for a boolean spline, and for a rotation spline whenever
    [slerp] at parameter 0 returns its first argument. *)
Theorem set_then_at {Quat : Type} {Quat_ctor : DefaultConstructible Quat}
    (slerp : Quat -> Quat -> Float32.value -> Quat) :
  (forall (m : StdMap.map bool) (t : float) (v : bool),
      StdMap.ordered m -> SplineBool.at_ (SplineBool.set t v m) t = v)
  /\ ((forall q0 q1, slerp q0 q1 (Float32.Num 0) = q0) ->
      forall (m : StdMap.map Quat) (t : float) (q : Quat),
        StdMap.ordered m -> SplineQuat.at_ slerp (SplineQuat.set t q m) t = q).
Proof.
  split.
  - intros m t v Ho. rewrite bool_at_eval.
    apply SplinesSpec.eval_set_exact; auto.
  - intros Hslerp m t q Ho. rewrite quat_at_eval.
    apply SplinesSpec.eval_set_exact; auto using slerp_start.
Qed.

(** X18.  [crop(c)] freezes the curve from [c] on: every query at or after
    [c] returns what the query at [c] returns, for both policies and with
    no assumption on [slerp]. *)
Theorem crop_freezes {Quat : Type} {Quat_ctor : DefaultConstructible Quat}
    (slerp : Quat -> Quat -> Float32.value -> Quat) (c t : float) :
  c <= t ->
  (forall (m : StdMap.map bool),
      StdMap.ordered m ->
      SplineBool.at_ (SplineBool.crop c m) t = SplineBool.at_ (SplineBool.crop c m) c)
  /\ (forall (m : StdMap.map Quat),
        StdMap.ordered m ->
        SplineQuat.at_ slerp (SplineQuat.crop c m) t
        = SplineQuat.at_ slerp (SplineQuat.crop c m) c).
Proof.
  intros Hct. split; intros m Ho.
  - exact (eval_after_crop false SplineBool.past_the_end Knots.step_between
             m c t Ho Hct).
  - exact (eval_after_crop construct (Time.of_Z 0, construct)
             (Knots.slerp_between slerp) m c t Ho Hct).
Qed.

Lemma set_then_at_witness :
  StdMap.ordered Sample.knots
  /\ SplineBool.at_ (SplineBool.set (Time.of_Z 2) true Sample.knots) (Time.of_Z 2)
     = true.
Proof.
  assert (Ho : StdMap.ordered Sample.knots) by ordered_by_computation.
  split; [exact Ho |].
  exact (proj1 (set_then_at Planar.slerp) Sample.knots (Time.of_Z 2) true Ho).
Defined.

Lemma crop_freezes_witness :
  Time.of_Z 2 <= Time.of_Z 7
  /\ StdMap.ordered Sample.knots
  /\ SplineBool.at_ (SplineBool.crop (Time.of_Z 2) Sample.knots) (Time.of_Z 7)
     = SplineBool.at_ (SplineBool.crop (Time.of_Z 2) Sample.knots) (Time.of_Z 2).
Proof.
  assert (Hle : Time.of_Z 2 <= Time.of_Z 7) by (vm_compute; discriminate).
  assert (Ho : StdMap.ordered Sample.knots) by ordered_by_computation.
  split; [exact Hle |]. split; [exact Ho |].
  exact (proj1 (crop_freezes Planar.slerp (Time.of_Z 2) (Time.of_Z 7) Hle)
           Sample.knots Ho).
Defined.

Lemma step_latest_knot_witness :
  StdMap.ordered Sample.knots
  /\ In (Time.of_Z 2, false) Sample.knots
  /\ Time.of_Z 2 <= Time.of_Z 2
  /\ SplineBool.at_ Sample.knots (Time.of_Z 2) = false.
Proof.
  assert (Ho : StdMap.ordered Sample.knots) by ordered_by_computation.
  assert (Hin : In (Time.of_Z 2, false) Sample.knots) by (simpl; auto).
  assert (Hle : Time.of_Z 2 <= Time.of_Z 2) by (vm_compute; discriminate).
  split; [exact Ho |]. split; [exact Hin |]. split; [exact Hle |].
  exact (step_latest_knot Sample.knots (Time.of_Z 2) (Time.of_Z 2, false)
           Ho Hin Hle (fun e' _ H => H)).
Defined.

Lemma step_returns_stored_value_witness :
  StdMap.ordered Sample.knots /\ Sample.knots <> []
  /\ exists e, In e Sample.knots /\ SplineBool.at_ Sample.knots (Time.of_Z 0) = snd e.
Proof.
  assert (Ho : StdMap.ordered Sample.knots) by ordered_by_computation.
  assert (Hne : Sample.knots <> []) by discriminate.
  split; [exact Ho |]. split; [exact Hne |].
  exact (step_returns_stored_value Sample.knots (Time.of_Z 0) Ho Hne).
Defined.

Lemma step_ignores_later_changes_witness :
  StdMap.ordered Sample.knots
  /\ (exists e, In e Sample.knots /\ fst e <= Time.of_Z 2)
  /\ Time.of_Z 2 < Time.of_Z 3
  /\ SplineBool.at_ (SplineBool.erase (Time.of_Z 3) Sample.knots) (Time.of_Z 2)
     = SplineBool.at_ Sample.knots (Time.of_Z 2).
Proof.
  assert (Ho : StdMap.ordered Sample.knots) by ordered_by_computation.
  assert (Hex : exists e, In e Sample.knots /\ fst e <= Time.of_Z 2).
  { exists (Time.of_Z 1, true). split; [now left | vm_compute; discriminate]. }
  assert (Hlt : Time.of_Z 2 < Time.of_Z 3) by reflexivity.
  split; [exact Ho |]. split; [exact Hex |]. split; [exact Hlt |].
  exact (proj1 (proj2 (step_ignores_later_changes Sample.knots (Time.of_Z 2)
                         (Time.of_Z 3) true Ho Hex Hlt))).
Defined.

Lemma quat_outside_range_witness :
  let m : StdMap.map Planar.Rot :=
    [(Time.of_Z 1, Time.of_Z 10); (Time.of_Z 3, Time.of_Z 30)] in
  StdMap.ordered m
  /\ Knots.smallest m (Time.of_Z 1, Time.of_Z 10)
  /\ Time.of_Z 0 < Time.of_Z 1
  /\ SplineQuat.at_ Planar.slerp m (Time.of_Z 0) = Time.of_Z 10.
Proof.
  intros m.
  assert (Ho : StdMap.ordered m) by ordered_by_computation.
  assert (Hs : Knots.smallest m (Time.of_Z 1, Time.of_Z 10)).
  { split; [now left |].
    intros e' [<- | [<- | []]]; vm_compute; discriminate. }
  assert (Hlt : Time.of_Z 0 < Time.of_Z 1) by reflexivity.
  split; [exact Ho |]. split; [exact Hs |]. split; [exact Hlt |].
  exact (proj1 (quat_outside_range Planar.slerp m _ (Time.of_Z 0) Ho) Hs Hlt).
Defined.

End EvalLaws.


(** ** Laws of the multi-channel composition *)

Module SplinesLaws.
Import TimeFacts MapFacts MapLaws PolicyFacts SplinesSpec.
Import Splines.

(** *** [std::set] insertion *)

Lemma In_insert (x y : float) (s : StdSet.set) :
  In x (StdSet.insert y s) <-> x = y \/ In x s.
Proof.
  induction s as [| z s IH]; simpl.
  - intuition.
  - destruct (compare_spec y z) as [E | L | G]; simpl.
    + subst z. intuition.
    + intuition.
    + rewrite IH. intuition.
Qed.

Lemma sorted_insert (y : float) (s : StdSet.set) :
  StronglySorted Qclt s -> StronglySorted Qclt (StdSet.insert y s).
Proof.
  induction 1 as [| z s Hs IH Hz]; simpl.
  - repeat constructor.
  - destruct (compare_spec y z) as [E | L | G].
    + now constructor.
    + constructor; [now constructor |].
      constructor; [exact L |].
      eapply Forall_impl; [| exact Hz]. intros a Ha. simpl in Ha. order.
    + constructor; [exact IH |].
      apply Forall_forall. intros a Ha. apply In_insert in Ha.
      destruct Ha as [-> | Ha]; [exact G |].
      rewrite Forall_forall in Hz. now apply Hz.
Qed.

Lemma In_insert_range (x : float) (xs : list float) (s : StdSet.set) :
  In x (StdSet.insert_range xs s) <-> In x xs \/ In x s.
Proof.
  unfold StdSet.insert_range. revert s.
  induction xs as [| y xs IH]; intros s; simpl.
  - intuition.
  - rewrite IH, In_insert. intuition.
Qed.

Lemma sorted_insert_range (xs : list float) (s : StdSet.set) :
  StronglySorted Qclt s -> StronglySorted Qclt (StdSet.insert_range xs s).
Proof.
  unfold StdSet.insert_range. revert s.
  induction xs as [| y xs IH]; intros s Hs; simpl; [exact Hs |].
  apply IH. now apply sorted_insert.
Qed.

(** *** Single-channel key sets after each mutator *)

Section OneChannel.
Context {T : Type}.
Implicit Types (m : StdMap.map T) (t : float).

Lemma keys_set t (v : T) m :
  StdMap.ordered m ->
  Spline.keys (Spline.set t v m) = StdSet.insert t (Spline.keys m).
Proof.
  intros Ho. unfold Spline.set.
  rewrite (keys_ordered m Ho), (keys_ordered _ (ordered_assign t v m Ho)).
  apply assign_keys_insert.
Qed.

Lemma keys_erase t m :
  StdMap.ordered m ->
  Spline.keys (Spline.erase t m)
  = filter (fun k => negb (Time.eqb k t)) (Spline.keys m).
Proof.
  intros Ho. unfold Spline.erase.
  rewrite (keys_ordered m Ho), (keys_ordered _ (ordered_erase_key t m Ho)).
  now apply erase_keys_filter.
Qed.

Lemma keys_crop t m :
  StdMap.ordered m ->
  Spline.keys (Spline.crop t m) = filter (fun k => Time.ltb k t) (Spline.keys m).
Proof.
  intros Ho.
  rewrite (keys_ordered m Ho), (keys_ordered _ (ordered_crop t m Ho)).
  rewrite crop_filter by exact Ho.
  exact (MutationSpec.keys_filter (fun k => Time.ltb k t) m).
Qed.

Lemma has_keys t m :
  StdMap.ordered m -> (Spline.has t m = true <-> In t (Spline.keys m)).
Proof.
  intros Ho. rewrite (keys_ordered m Ho). now apply has_In.
Qed.

End OneChannel.

(** *** Compositions *)

Lemma lockstep_ordered {Ts} (s : Splines Ts) ks :
  lockstep ks s -> Channels.ordered s.
Proof.
  induction s as [T head | T Ts head tail IH]; simpl; [tauto |].
  intros [[Ho _] Hl]. split; [exact Ho | now apply IH].
Qed.

Lemma lockstep_shape {Ts} (s : Splines Ts) ks :
  lockstep ks s -> StdMap.ordered (shape ks).
Proof.
  destruct s as [T head | T Ts head tail]; simpl.
  - intros [Ho E]. apply (ordered_same_keys head); [| exact Ho].
    now rewrite shape_keys.
  - intros [[Ho E] _]. apply (ordered_same_keys head); [| exact Ho].
    now rewrite shape_keys.
Qed.

Lemma splines_has_keys {Ts} (s : Splines Ts) t :
  Channels.ordered s -> (has t s = true <-> In t (keys s)).
Proof.
  induction s as [T head | T Ts head tail IH]; simpl.
  - intros Ho. now apply has_keys.
  - intros [Ho Hc]. rewrite orb_true_iff, In_insert_range.
    now rewrite (has_keys t head Ho), (IH Hc).
Qed.

(** X14.  [Splines::keys] is the sorted, duplicate-free union of the
    channels' key sets; [Splines::has] answers true exactly for the times
    in it, and [Splines::any] exactly when it is not empty.  This holds
    for arbitrary channels, whether or not they share their knot times. *)
Theorem keys_union {Ts} (s : Splines Ts) :
  Channels.ordered s ->
  StronglySorted Qclt (keys s)
  /\ (forall t, In t (keys s) <-> Exists (fun ks => In t ks) (channel_keys s))
  /\ (forall t, has t s = true <-> In t (keys s))
  /\ (any s = true <-> keys s <> []).
Proof.
  intros Hc.
  assert (Hany : any s = true <-> exists t, has t s = true).
  { clear Hc. induction s as [T head | T Ts head tail IH]; simpl.
    - apply SplineLaws.any_has.
    - rewrite orb_true_iff, IH, SplineLaws.any_has. split.
      + intros [[t H] | [t H]]; exists t; rewrite H; auto using orb_true_r.
      + intros [t H]. apply orb_true_iff in H.
        destruct H as [H | H]; [left | right]; now exists t. }
  split; [| split; [| split]].
  - clear Hany. induction s as [T head | T Ts head tail IH]; simpl in *.
    + rewrite (keys_ordered head Hc). now apply ordered_sorted.
    + destruct Hc as [_ Hc]. apply sorted_insert_range. now apply IH.
  - intros t. clear Hany.
    induction s as [T head | T Ts head tail IH]; simpl in *.
    + rewrite Exists_cons, Exists_nil. tauto.
    + destruct Hc as [_ Hc]. rewrite In_insert_range, Exists_cons, (IH Hc). tauto.
  - intros t. now apply splines_has_keys.
  - rewrite Hany. split.
    + intros [t Ht] E. apply (splines_has_keys s t Hc) in Ht.
      rewrite E in Ht. destruct Ht.
    + intros Hne. destruct (keys s) as [| t l] eqn:E; [now elim Hne |].
      exists t. apply (splines_has_keys s t Hc). rewrite E. now left.
Qed.

(** X15.  Every mutator of [Splines] reaches every channel and keeps each
    channel well formed: after [set] each channel's key set has the time
    inserted, after [erase] it has lost exactly that time, after [crop] it
    has lost exactly the times at or after the crop time, and after [clear]
    it is empty. *)
Theorem mutators_broadcast {Ts} (s : Splines Ts) (t : float) (args : tuple Ts) :
  Channels.ordered s ->
  (Channels.ordered (set t s args)
   /\ channel_keys (set t s args) = List.map (StdSet.insert t) (channel_keys s))
  /\ (Channels.ordered (erase t s)
      /\ channel_keys (erase t s)
         = List.map (filter (fun k => negb (Time.eqb k t))) (channel_keys s))
  /\ (Channels.ordered (crop t s)
      /\ channel_keys (crop t s)
         = List.map (filter (fun k => Time.ltb k t)) (channel_keys s))
  /\ (Channels.ordered (clear s)
      /\ channel_keys (clear s) = List.map (fun _ => []) (channel_keys s)).
Proof.
  intros Hc. split; [| split; [| split]].
  - revert args. induction s as [T head | T Ts head tail IH]; intros args; simpl in *.
    + split; [now apply ordered_assign |]. now rewrite keys_set.
    + destruct Hc as [Ho Hc]. destruct (IH Hc (snd args)) as [IH1 IH2].
      split; [split; [now apply ordered_assign | exact IH1] |].
      rewrite keys_set by exact Ho. f_equal. exact IH2.
  - induction s as [T head | T Ts head tail IH]; simpl in *.
    + split; [now apply ordered_erase_key |]. now rewrite keys_erase.
    + destruct Hc as [Ho Hc]. destruct (IH (snd args) Hc) as [IH1 IH2].
      split; [split; [now apply ordered_erase_key | exact IH1] |].
      rewrite keys_erase by exact Ho. f_equal. exact IH2.
  - induction s as [T head | T Ts head tail IH]; simpl in *.
    + split; [now apply ordered_crop |]. now rewrite keys_crop.
    + destruct Hc as [Ho Hc]. destruct (IH (snd args) Hc) as [IH1 IH2].
      split; [split; [now apply ordered_crop | exact IH1] |].
      rewrite keys_crop by exact Ho. f_equal. exact IH2.
  - clear Hc. induction s as [T head | T Ts head tail IH]; simpl in *.
    + split; [exact I | reflexivity].
    + destruct (IH (snd args)) as [IH1 IH2].
      split; [split; [exact I | exact IH1] |]. f_equal. exact IH2.
Qed.

(** X16.  On every state reachable from a freshly created composition,
    [keys] changes with the mutators like a single channel's key set,
    [has] is true right after [set] and false right after [erase] at the
    same time, and [has] (defined as "some channel has") is true exactly
    when every channel has a knot at that time. *)
Theorem reachable_keys (T : Channel) (Ts : list Channel)
    (cs : list (call (T :: Ts))) (t : float) (args : tuple (T :: Ts)) :
  let s := run cs (create T Ts) in
  keys (set t s args) = StdSet.insert t (keys s)
  /\ keys (erase t s) = filter (fun k => negb (Time.eqb k t)) (keys s)
  /\ keys (crop t s) = filter (fun k => Time.ltb k t) (keys s)
  /\ keys (clear s) = []
  /\ has t (set t s args) = true
  /\ has t (erase t s) = false
  /\ (has t s = true <-> Forall (fun ks => In t ks) (channel_keys s)).
Proof.
  intros s.
  destruct (lockstep_run cs (create T Ts) [] (lockstep_create T Ts)) as [ks Hl].
  fold s in Hl.
  assert (Hsh := lockstep_shape s ks Hl).
  destruct (lockstep_keys s ks Hl) as [Ek Hall].
  assert (Hset : keys (set t s args) = StdSet.insert t (keys s)).
  { destruct (lockstep_keys _ _ (lockstep_set s ks t args Hl)) as [E _].
    now rewrite E, Ek, assign_keys_insert, shape_keys. }
  assert (Herase : keys (erase t s)
            = filter (fun k => negb (Time.eqb k t)) (keys s)).
  { destruct (lockstep_keys _ _ (lockstep_erase s ks t Hl)) as [E _].
    now rewrite E, Ek, erase_keys_filter, shape_keys. }
  split; [exact Hset |]. split; [exact Herase |]. split; [| split; [| split; [| split]]].
  - destruct (lockstep_keys _ _ (lockstep_crop s ks t Hl)) as [E _].
    rewrite E, Ek, crop_filter by exact Hsh.
    rewrite (MutationSpec.keys_filter (fun k => Time.ltb k t) (shape ks)).
    now rewrite shape_keys.
  - destruct (lockstep_keys _ _ (lockstep_clear s)) as [E _]. exact E.
  - apply splines_has_keys.
    + exact (lockstep_ordered _ _ (lockstep_set s ks t args Hl)).
    + rewrite Hset. apply In_insert. now left.
  - destruct (has t (erase t s)) eqn:E; [| reflexivity].
    exfalso. apply splines_has_keys in E;
      [| exact (lockstep_ordered _ _ (lockstep_erase s ks t Hl))].
    rewrite Herase in E. apply filter_In in E. destruct E as [_ E].
    apply negb_true_iff, eqb_neq in E. now elim E.
  - rewrite (splines_has_keys s t (lockstep_ordered s ks Hl)), Ek.
    rewrite Forall_forall in Hall. split.
    + intros Hin. apply Forall_forall. intros k Hk. now rewrite (Hall k Hk).
    + intros Hf. rewrite Forall_forall in Hf.
      assert (Hex : exists k, In k (channel_keys s))
        by (destruct s; simpl; eauto).
      destruct Hex as [k Hk]. rewrite <- (Hall k Hk). now apply Hf.
Qed.

Lemma keys_union_witness :
  let s : Splines [bool_channel; bool_channel] :=
    @Chain bool_channel [bool_channel] Sample.knots
      (@Single bool_channel [(Time.of_Z 5, true)]) in
  Channels.ordered s
  /\ StronglySorted Qclt (keys s)
  /\ (has (Time.of_Z 5) s = true <-> In (Time.of_Z 5) (keys s)).
Proof.
  intros s.
  assert (Hc : Channels.ordered s) by ordered_by_computation.
  split; [exact Hc |].
  split; [exact (proj1 (keys_union s Hc)) |].
  exact (proj1 (proj2 (proj2 (keys_union s Hc))) (Time.of_Z 5)).
Defined.

Lemma mutators_broadcast_witness :
  let s : Splines [bool_channel; bool_channel] :=
    @Chain bool_channel [bool_channel] Sample.knots
      (@Single bool_channel [(Time.of_Z 5, true)]) in
  Channels.ordered s
  /\ channel_keys (crop (Time.of_Z 2) s)
     = List.map (filter (fun k => Time.ltb k (Time.of_Z 2))) (channel_keys s).
Proof.
  intros s.
  assert (Hc : Channels.ordered s) by ordered_by_computation.
  split; [exact Hc |].
  exact (proj2 (proj1 (proj2 (proj2
           (mutators_broadcast s (Time.of_Z 2) (true, (true, tt)) Hc))))).
Defined.

End SplinesLaws.
